(** * manta-muskie: request throttle and checked stream

    A shallow embedding of [lib/throttle.js] (the request throttle) and
    [lib/check_stream.js] (the digest / size / idle guard around a byte
    stream), with the properties of their specification.

    Conventions of the embedding.
    - JavaScript numbers that hold counts (bytes, queue lengths, request
      counters, nanoseconds) are integers of [Z] or [nat]; numbers that hold
      rates and durations in seconds are exact rationals of [Q].  Rounding of
      IEEE doubles is not modelled.
    - Mutation of [this]/[self] is explicit state passing: a method takes the
      object and returns the updated object.
    - Everything a method does to the outside (DTrace probes, continuations
      called, events delivered to listeners) is returned as a list of effects
      in program order.
    - Reads of the clock are inputs: every [process.hrtime()] of a method is an
      argument of its model. *)

From Stdlib Require Import ZArith QArith Lia List.
From stdpp Require Import base gmap strings list.
Import ListNotations.
Local Open Scope Z_scope.

(** Strict comparison of two JavaScript numbers, [x < y]. *)
Definition Qlt_bool (x y : Q) : bool := negb (Qle_bool y x).

(** ** Errors *)

(** Modelled from the spec: [lib/errors.js], which both modules load for
    its error classes, is not among the sources at hand.  The two classes
    they construct are taken from the calls ([new ThrottledError()],
    [new MaxSizeExceededError(self.maxBytes)]) and from the error taxonomy of
    the specification; only their identity matters here. *)
Inductive Error : Type :=
| ThrottledError
| MaxSizeExceededError (maxBytes : Z).

(** ** High-resolution time *)
Module HrTime.

(** A reading of [process.hrtime()]: the array [[seconds, nanoseconds]]. *)
Definition hrtime : Type := Z * Z.

Definition NS_PER_SEC : Z := 10 ^ 9.

Definition wf (t : hrtime) : Prop := 0 <= t.1 /\ 0 <= t.2 < NS_PER_SEC.

(** [process.hrtime(prev)] at clock reading [now]: the difference to an
    earlier reading, again as [[seconds, nanoseconds]] with the nanoseconds
    borrowed into the range of one second. *)
Definition since (now prev : hrtime) : hrtime :=
  let sec := now.1 - prev.1 in
  let nsec := now.2 - prev.2 in
  if nsec <? 0 then (sec - 1, nsec + NS_PER_SEC) else (sec, nsec).

(** [jsprim.hrtimeDiff(a, b)]: the same difference, computed by jsprim (which
    also asserts that [a] is not before [b]; readings of the monotonic clock
    satisfy that). *)
Definition hrtimeDiff (a b : hrtime) : hrtime :=
  if b.2 <=? a.2 then (a.1 - b.1, a.2 - b.2)
  else (a.1 - b.1 - 1, NS_PER_SEC - (b.2 - a.2)).

(** The whole duration a difference stands for, in nanoseconds and in
    seconds. *)
Definition to_ns (d : hrtime) : Z := d.1 * NS_PER_SEC + d.2.
Definition total_seconds (d : hrtime) : Q := inject_Z (to_ns d) / inject_Z NS_PER_SEC.

(** [x / Math.pow(10, 9)] *)
Definition div_1e9 (x : Z) : Q := inject_Z x / inject_Z NS_PER_SEC.

End HrTime.

(** ** The work queue behind the throttle *)
Module WorkQueue.

(** The work item [wait] pushes: [function (cb) { next(); cb(); }], a closure
    over the request's [next] continuation, which is all that tells two work
    items apart. *)
Record Task : Type := mkTask { task_next : nat }.

Record Entry : Type := mkEntry { id : nat; task : Task }.

(** Modelled from the spec: [vasync.queue], the queue created in the
    [Throttle] constructor ([lib/throttle.js] line 188), comes from the
    vasync package and its source is not part of this repository.  The
    fields are the ones [throttle.js] reads ([queued],
    [npending], [length()]) and the behaviour is the AdmissionQueue of the
    specification: [submit] starts the item when fewer than [concurrency]
    items are running and appends it to the waiting sequence otherwise; the
    completion of a running item starts the oldest waiting item.  With
    vasync's names, [pending] holds the items being processed and [queued]
    the items waiting.  "Begin running" moves the item to [pending]; the
    work function itself is called by the scheduler in a later turn (see
    [Throttle.runWorker]).  [started] is history kept for the proofs: the
    ids in the order in which they began running. *)
Record t : Type := mk {
  concurrency : Z;
  pending : list Entry;
  queued : list Entry;
  nextid : nat;
  started : list nat
}.

(** Modelled from the spec: [vasync.queue(worker, concurrency)], the empty
    queue. *)
Definition create (concurrency : Z) : t :=
  {| concurrency := concurrency; pending := []; queued := []; nextid := 0; started := [] |}.

(** Modelled from the spec: [queue.npending], the count of items being
    processed ([runningCount]). *)
Definition npending (q : t) : nat := List.length (pending q).

(** Modelled from the spec: [queue.length()], items being processed plus
    items waiting. *)
Definition length (q : t) : nat := (npending q + List.length (queued q))%nat.

(** Modelled from the spec: an item begins running. *)
Definition start (e : Entry) (q : t) : t :=
  {| concurrency := concurrency q;
     pending := pending q ++ [e];
     queued := queued q;
     nextid := nextid q;
     started := started q ++ [id e] |}.

(** Modelled from the spec: [queue.push(task)], the AdmissionQueue's
    [submit]: the item begins running if fewer than [concurrency] items run,
    and is appended to the waiting sequence otherwise. *)
Definition push (w : Task) (q : t) : t :=
  let e := mkEntry (S (nextid q)) w in
  let q := {| concurrency := concurrency q; pending := pending q; queued := queued q;
              nextid := S (nextid q); started := started q |} in
  if Z.of_nat (npending q) <? concurrency q then start e q
  else {| concurrency := concurrency q; pending := pending q; queued := queued q ++ [e];
          nextid := nextid q; started := started q |}.

Definition is_pending (i : nat) (q : t) : bool :=
  existsb (fun e => Nat.eqb (id e) i) (pending q).

Definition find_pending (i : nat) (q : t) : option Entry :=
  List.find (fun e => Nat.eqb (id e) i) (pending q).

(** Modelled from the spec: the completion callback of the running item
    [i].  The item leaves [pending] and, when items wait, the oldest of them
    begins running.  Completing an item that is not running does nothing. *)
Definition complete (i : nat) (q : t) : t :=
  if is_pending i q then
    let q := {| concurrency := concurrency q;
                pending := List.filter (fun e => negb (Nat.eqb (id e) i)) (pending q);
                queued := queued q; nextid := nextid q; started := started q |} in
    match queued q with
    | [] => q
    | e :: rest =>
        start e {| concurrency := concurrency q; pending := pending q; queued := rest;
                   nextid := nextid q; started := started q |}
    end
  else q.

(** A pattern of submissions and completions. *)
Inductive Op : Type :=
| Submit (w : Task)
| Complete (i : nat).

Definition apply (o : Op) (q : t) : t :=
  match o with
  | Submit w => push w q
  | Complete i => complete i q
  end.

Definition run (ops : list Op) (q : t) : t := fold_left (fun q o => apply o q) ops q.

(** What every queue built by submissions and completions satisfies: no
    more than [concurrency] items run; items wait only while all slots are
    taken; the items started so far, followed by the waiting ones, are all
    the items in the order they were submitted; a running item was started,
    and runs once. *)
Record Inv (q : t) : Prop := mkInv {
  inv_bound : Z.of_nat (npending q) <= concurrency q;
  inv_full : queued q <> [] -> Z.of_nat (npending q) = concurrency q;
  inv_order : started q ++ map id (queued q) = seq 1 (nextid q);
  inv_running : incl (map id (pending q)) (started q);
  inv_nodup : NoDup (map id (pending q))
}.

End WorkQueue.

(** ** The throttle, [lib/throttle.js] *)
Module Throttle.
Import HrTime.

(** The [options] of [createThrottle]. *)
Record Options : Type := mkOptions {
  opt_enabled : bool;
  opt_concurrency : Z;
  opt_requestRateCapacity : Q;
  opt_rateCheckInterval : Q;
  opt_queueTolerance : Z
}.

(** The state of a [Throttle] object (log and probe handles left out). *)
Record Throttle : Type := mkThrottle {
  enabled : bool;
  concurrency : Z;
  requestRateCapacity : Q;
  rateCheckInterval : Q;
  queueTolerance : Z;
  requestQueue : WorkQueue.t;
  lastCheck : hrtime;
  mostRecentRequestRate : Q;
  requestsPerCheckInterval : Z;
  requestsHandled : Z
}.

(** The part of a restify request the throttle touches. *)
Record Request : Type := mkRequest {
  method : string;
  url : string;
  throttleStartTime : option hrtime
}.

(** What the throttle does to the outside: the five DTrace probes with the
    arguments they fire with, and calls of a [next] continuation. *)
Inductive Effect : Type :=
| ProbeRequestRateChecked (rate : Q)
| ProbeRequestReceived (method url : string) (length : nat)
| ProbeRequestThrottled (length : nat) (rate : Q) (url method : string)
| ProbeRequestHandled (method url : string) (latency_ns : Z)
| ProbeQueueStatus (queued npending : nat)
| CallNext (next : nat) (err : option Error).

(** The constructor: the [assert] lines, then the initial state.  [now] is
    the reading of [process.hrtime()] stored in [lastCheck]. *)
Definition createThrottle (options : Options) (now : hrtime) : option Throttle :=
  if (0 <? opt_concurrency options)
     && Qlt_bool 0 (opt_requestRateCapacity options)
     && Qlt_bool 0 (opt_rateCheckInterval options)
     && (0 <? opt_queueTolerance options)
  then Some {| enabled := opt_enabled options;
               concurrency := opt_concurrency options;
               requestRateCapacity := opt_requestRateCapacity options;
               rateCheckInterval := opt_rateCheckInterval options;
               queueTolerance := opt_queueTolerance options;
               requestQueue := WorkQueue.create (opt_concurrency options);
               lastCheck := now;
               mostRecentRequestRate := 0;
               requestsPerCheckInterval := 0;
               requestsHandled := 0 |}
  else None.

Definition set_lastCheck (v : hrtime) (self : Throttle) : Throttle :=
  {| enabled := enabled self; concurrency := concurrency self;
     requestRateCapacity := requestRateCapacity self;
     rateCheckInterval := rateCheckInterval self;
     queueTolerance := queueTolerance self; requestQueue := requestQueue self;
     lastCheck := v; mostRecentRequestRate := mostRecentRequestRate self;
     requestsPerCheckInterval := requestsPerCheckInterval self;
     requestsHandled := requestsHandled self |}.

Definition set_mostRecentRequestRate (v : Q) (self : Throttle) : Throttle :=
  {| enabled := enabled self; concurrency := concurrency self;
     requestRateCapacity := requestRateCapacity self;
     rateCheckInterval := rateCheckInterval self;
     queueTolerance := queueTolerance self; requestQueue := requestQueue self;
     lastCheck := lastCheck self; mostRecentRequestRate := v;
     requestsPerCheckInterval := requestsPerCheckInterval self;
     requestsHandled := requestsHandled self |}.

Definition set_requestsPerCheckInterval (v : Z) (self : Throttle) : Throttle :=
  {| enabled := enabled self; concurrency := concurrency self;
     requestRateCapacity := requestRateCapacity self;
     rateCheckInterval := rateCheckInterval self;
     queueTolerance := queueTolerance self; requestQueue := requestQueue self;
     lastCheck := lastCheck self; mostRecentRequestRate := mostRecentRequestRate self;
     requestsPerCheckInterval := v;
     requestsHandled := requestsHandled self |}.

Definition set_requestQueue (v : WorkQueue.t) (self : Throttle) : Throttle :=
  {| enabled := enabled self; concurrency := concurrency self;
     requestRateCapacity := requestRateCapacity self;
     rateCheckInterval := rateCheckInterval self;
     queueTolerance := queueTolerance self; requestQueue := v;
     lastCheck := lastCheck self; mostRecentRequestRate := mostRecentRequestRate self;
     requestsPerCheckInterval := requestsPerCheckInterval self;
     requestsHandled := requestsHandled self |}.

Definition set_throttleStartTime (v : hrtime) (req : Request) : Request :=
  {| method := method req; url := url req; throttleStartTime := Some v |}.

(** [computeRequestRate]: [checkTime] is its reading of the clock.  Returns
    the rate and the throttle with [lastCheck] moved (or not).  The quotient
    is the exact rational, where the code rounds it to a double; what is
    stated of a rate in general is a comparison that the rounding keeps. *)
Definition computeRequestRate (checkTime : hrtime) (self : Throttle) : Q * Throttle :=
  let elapsed := hrtimeDiff checkTime (lastCheck self) in
  let elapsedSec := div_1e9 elapsed.2 in
  if Qeq_bool elapsedSec 0 then (0%Q, self)
  else
    let self := set_lastCheck checkTime self in
    ((inject_Z (requestsPerCheckInterval self) / elapsedSec)%Q, self).

(** [computeRequestLatency]: the two [assert.ok] lines can throw, which is
    [None]; otherwise the latency and the probe fired.  [req = None] is a
    missing request, [now] the clock read by [process.hrtime(start)]. *)
Definition computeRequestLatency (now : hrtime) (req : option Request)
                                 (self : Throttle) : option (hrtime * list Effect) :=
  match req with
  | None => None
  | Some req =>
      match throttleStartTime req with
      | None => None
      | Some start =>
          let latency := since now start in
          Some (latency, [ProbeRequestHandled (method req) (url req) latency.2])
      end
  end.

(** The three readings of the clock one call of [wait] can make: in [wait]
    itself for the elapsed time, in [computeRequestRate], and for
    [throttleStartTime]. *)
Record Clock : Type := mkClock {
  now_wait : hrtime;
  now_rate : hrtime;
  now_start : hrtime
}.

(** [wait] from the assignment of [req.throttleStartTime] to its end: the
    path of a request that is not turned away. *)
Definition wait_rest (clk : Clock) (req : Request) (next : nat) (self : Throttle)
                     (fx : list Effect) : Throttle * Request * list Effect :=
  let req := set_throttleStartTime (now_start clk) req in
  let '(self, fx) :=
    if enabled self then
      (set_requestQueue (WorkQueue.push (WorkQueue.mkTask next) (requestQueue self)) self, fx)
    else
      (self, fx ++ [CallNext next None]) in
  (self, req,
   fx ++ [ProbeQueueStatus (List.length (WorkQueue.queued (requestQueue self)))
                           (WorkQueue.npending (requestQueue self))]).

(** [wait] from its first line to the [request_rate_checked] probe: the
    request is counted and, when the interval has passed, the rate is
    computed again. *)
Definition wait_rate (clk : Clock) (self : Throttle) : Throttle * list Effect :=
  let self := set_requestsPerCheckInterval (requestsPerCheckInterval self + 1) self in
  let elapsedSec := div_1e9 (since (now_wait clk) (lastCheck self)).2 in
  if Qlt_bool (rateCheckInterval self) elapsedSec then
    let '(rate, self) := computeRequestRate (now_rate clk) self in
    let self := set_mostRecentRequestRate rate self in
    let self := set_requestsPerCheckInterval 0 self in
    (self, [ProbeRequestRateChecked (mostRecentRequestRate self)])
  else (self, []).

(** The test of the [if] that guards the [request_throttled] probe. *)
Definition over_capacity (self : Throttle) : bool :=
  Qlt_bool (requestRateCapacity self) (mostRecentRequestRate self)
  && (queueTolerance self <=? Z.of_nat (WorkQueue.length (requestQueue self))).

(** [Throttle.prototype.wait(req, res, next)].  [res] is not used. *)
Definition wait (clk : Clock) (req : Request) (next : nat) (self : Throttle)
  : Throttle * Request * list Effect :=
  let '(self, fx) := wait_rate clk self in
  let fx := fx ++ [ProbeRequestReceived (method req) (url req)
                                        (WorkQueue.length (requestQueue self))] in
  if over_capacity self then
    let fx := fx ++ [ProbeRequestThrottled (WorkQueue.length (requestQueue self))
                                           (mostRecentRequestRate self)
                                           (url req) (method req)] in
    if enabled self then (self, req, fx ++ [CallNext next (Some ThrottledError)])
    else wait_rest clk req next self fx
  else wait_rest clk req next self fx.

(** The queue's worker, [function (task, callback) { task(callback); }], run
    by the scheduler on the running item [i]: the task calls [next()] and
    then [cb()], which completes the item. *)
Definition runWorker (i : nat) (self : Throttle) : Throttle * list Effect :=
  match WorkQueue.find_pending i (requestQueue self) with
  | None => (self, [])
  | Some e =>
      (set_requestQueue (WorkQueue.complete i (requestQueue self)) self,
       [CallNext (WorkQueue.task_next (WorkQueue.task e)) None])
  end.

(** What happens to a throttle over time: requests arrive and the scheduler
    runs workers. *)
Inductive Event : Type :=
| Arrive (clk : Clock) (req : Request) (next : nat)
| RunWorker (i : nat).

Definition handle (ev : Event) (self : Throttle) : Throttle * list Effect :=
  match ev with
  | Arrive clk req next => let '(self, _, fx) := wait clk req next self in (self, fx)
  | RunWorker i => runWorker i self
  end.

Fixpoint run (evs : list Event) (self : Throttle) : Throttle * list Effect :=
  match evs with
  | [] => (self, [])
  | ev :: evs =>
      let '(self, fx) := handle ev self in
      let '(self, fx') := run evs self in
      (self, fx ++ fx')
  end.

(** The request was turned away: [next] was called with a [ThrottledError]. *)
Definition rejects (next : nat) (fx : list Effect) : Prop :=
  In (CallNext next (Some ThrottledError)) fx.

(** The calls of continuations among the effects, and the
    [request_throttled] probes among them. *)
Definition is_call_next (e : Effect) : bool :=
  match e with
  | CallNext _ _ => true
  | _ => false
  end.

Definition is_throttled_probe (e : Effect) : bool :=
  match e with
  | ProbeRequestThrottled _ _ _ _ => true
  | _ => false
  end.

(** The same throttle with the other setting of [enabled]. *)
Definition set_enabled (v : bool) (self : Throttle) : Throttle :=
  {| enabled := v; concurrency := concurrency self;
     requestRateCapacity := requestRateCapacity self;
     rateCheckInterval := rateCheckInterval self;
     queueTolerance := queueTolerance self; requestQueue := requestQueue self;
     lastCheck := lastCheck self; mostRecentRequestRate := mostRecentRequestRate self;
     requestsPerCheckInterval := requestsPerCheckInterval self;
     requestsHandled := requestsHandled self |}.

(** A call of [next] with an error. *)
Definition is_reject (e : Effect) : bool :=
  match e with
  | CallNext _ (Some _) => true
  | _ => false
  end.

(** How many requests arrive in a history. *)
Definition arrivals (evs : list Event) : Z :=
  fold_right (fun ev n => match ev with
                          | Arrive _ _ _ => 1 + n
                          | RunWorker _ => n
                          end) 0 evs.

(** The readings of the clock in a history are readings of [process.hrtime]:
    the nanoseconds are within a second. *)
Definition wf_clock (clk : Clock) : Prop :=
  wf (now_wait clk) /\ wf (now_rate clk) /\ wf (now_start clk).

Definition wf_clocks (evs : list Event) : Prop :=
  Forall (fun ev => match ev with
                    | Arrive clk _ _ => wf_clock clk
                    | RunWorker _ => True
                    end) evs.

(** No arrival of a history finds the rate due, measured as [wait] measures
    it from the time [last] of the last check. *)
Definition none_due (interval : Q) (last : hrtime) (evs : list Event) : Prop :=
  Forall (fun ev => match ev with
                    | Arrive clk _ _ =>
                        Qlt_bool interval (div_1e9 (since (now_wait clk) last).2) = false
                    | RunWorker _ => True
                    end) evs.

(** The test of [wait] for computing the rate again, as the code makes it:
    the nanosecond entry of the time since [lastCheck], in seconds, against
    [rateCheckInterval]. *)
Definition check_due (clk : Clock) (self : Throttle) : bool :=
  Qlt_bool (rateCheckInterval self) (div_1e9 (since (now_wait clk) (lastCheck self)).2).

End Throttle.

(** ** The checked stream, [lib/check_stream.js] *)
Module CheckStream.

(** A chunk is a [Buffer]: a sequence of bytes. *)
Definition Buffer : Type := list Byte.byte.

(** *** The Node.js objects the stream uses *)

(** A [crypto.Hash]: the algorithm, everything [update] has been given so
    far, and how many times [digest] has finalized it. *)
Record Hash : Type := mkHash {
  hash_algorithm : string;
  hash_data : Buffer;
  hash_digests : nat
}.

(** The listeners of the stream's [EventEmitter]: the constructor's own
    [onFinish], and the handlers of the code that uses the stream, told
    apart by a number and attached with [on] or with [once]. *)
Inductive Listener : Type :=
| OnFinish
| Handler (h : nat) (once : bool).

Definition is_once (l : Listener) : bool :=
  match l with
  | OnFinish => true
  | Handler _ once => once
  end.

(** The functions the stream hands to [setImmediate]: the one of [onFinish]
    and the one of [_write], which holds the chunk's callback [cb]. *)
Inductive Immediate : Type :=
| FinishImmediate
| ExceededImmediate (cb : nat).

(** What the stream does to the outside: an event is emitted (with its
    argument, if any), a handler attached to it is called, the callback of a
    chunk is completed. *)
Inductive Effect : Type :=
| Emit (event : string) (arg : option Z)
| Call (h : nat) (event : string) (arg : option Z)
| Callback (cb : nat) (err : option Error).

(** The state of a [CheckStream] object, with the listener table of its
    [EventEmitter]. *)
Record CheckStream : Type := mkCheckStream {
  algorithm : string;
  bytes : Z;
  hash : Hash;
  maxBytes : Z;
  start : Z;
  timeout : Z;
  timer : nat;
  counter : string;
  _dead : bool;
  _digest : option Buffer;
  _events : gmap string (list Listener)
}.

(** The part of the Node.js runtime the stream acts on: the timers that are
    armed for [onTimeoutHandler] bound to this stream (by handle), the next
    timer handle, the queue of [setImmediate] functions of this stream, and
    the metric collector's counters by name. *)
Record Runtime : Type := mkRuntime {
  timers : gset nat;
  timer_seq : nat;
  immediates : list Immediate;
  collector : gmap string Z
}.

Record World : Type := mkWorld { this : CheckStream; node : Runtime }.

(** The [opts] of the constructor; [opts.collector] is the [collector] of
    the runtime. *)
Record Options : Type := mkOptions {
  opt_algorithm : option string;
  opt_maxBytes : Z;
  opt_timeout : Z;
  opt_inbound : bool
}.

(** What [digest] returns: the buffer or its text in an encoding. *)
Inductive DigestResult : Type :=
| AsBuffer (b : Buffer)
| AsString (s : string).

(** *** Updates of single fields *)

Definition set_bytes (v : Z) (s : CheckStream) : CheckStream :=
  {| algorithm := algorithm s; bytes := v; hash := hash s; maxBytes := maxBytes s;
     start := start s; timeout := timeout s; timer := timer s; counter := counter s;
     _dead := _dead s; _digest := _digest s; _events := _events s |}.

Definition set_hash (v : Hash) (s : CheckStream) : CheckStream :=
  {| algorithm := algorithm s; bytes := bytes s; hash := v; maxBytes := maxBytes s;
     start := start s; timeout := timeout s; timer := timer s; counter := counter s;
     _dead := _dead s; _digest := _digest s; _events := _events s |}.

Definition set_timer (v : nat) (s : CheckStream) : CheckStream :=
  {| algorithm := algorithm s; bytes := bytes s; hash := hash s; maxBytes := maxBytes s;
     start := start s; timeout := timeout s; timer := v; counter := counter s;
     _dead := _dead s; _digest := _digest s; _events := _events s |}.

Definition set_dead (v : bool) (s : CheckStream) : CheckStream :=
  {| algorithm := algorithm s; bytes := bytes s; hash := hash s; maxBytes := maxBytes s;
     start := start s; timeout := timeout s; timer := timer s; counter := counter s;
     _dead := v; _digest := _digest s; _events := _events s |}.

Definition set_digest (v : option Buffer) (s : CheckStream) : CheckStream :=
  {| algorithm := algorithm s; bytes := bytes s; hash := hash s; maxBytes := maxBytes s;
     start := start s; timeout := timeout s; timer := timer s; counter := counter s;
     _dead := _dead s; _digest := v; _events := _events s |}.

Definition set_events (v : gmap string (list Listener)) (s : CheckStream) : CheckStream :=
  {| algorithm := algorithm s; bytes := bytes s; hash := hash s; maxBytes := maxBytes s;
     start := start s; timeout := timeout s; timer := timer s; counter := counter s;
     _dead := _dead s; _digest := _digest s; _events := v |}.

Definition set_timers (v : gset nat) (r : Runtime) : Runtime :=
  {| timers := v; timer_seq := timer_seq r; immediates := immediates r;
     collector := collector r |}.

Definition set_immediates (v : list Immediate) (r : Runtime) : Runtime :=
  {| timers := timers r; timer_seq := timer_seq r; immediates := v;
     collector := collector r |}.

Definition set_collector (v : gmap string Z) (r : Runtime) : Runtime :=
  {| timers := timers r; timer_seq := timer_seq r; immediates := immediates r;
     collector := v |}.

(** *** Methods as computations

    A method runs in a world (the object and the runtime), may throw
    ([None]), and otherwise returns a value, the new world and the effects
    it had. *)
Definition M (A : Type) : Type := World -> option (A * World * list Effect).

Definition ret {A} (a : A) : M A := fun w => Some (a, w, []).

Definition bind {A B} (m : M A) (k : A -> M B) : M B :=
  fun w =>
    match m w with
    | None => None
    | Some (a, w1, fx1) =>
        match k a w1 with
        | None => None
        | Some (b, w2, fx2) => Some (b, w2, fx1 ++ fx2)
        end
    end.

Definition throw {A} : M A := fun _ => None.
Definition get {A} (f : CheckStream -> A) : M A := fun w => Some (f (this w), w, []).
Definition update (f : CheckStream -> CheckStream) : M unit :=
  fun w => Some (tt, mkWorld (f (this w)) (node w), []).
Definition get_node {A} (f : Runtime -> A) : M A := fun w => Some (f (node w), w, []).
Definition update_node (f : Runtime -> Runtime) : M unit :=
  fun w => Some (tt, mkWorld (this w) (f (node w)), []).
Definition tell (fx : list Effect) : M unit := fun w => Some (tt, w, fx).

Declare Scope js_scope.
Delimit Scope js_scope with js.
Notation "x <- m ;; k" := (bind m (fun x => k))
  (at level 100, m at next level, k at level 200, right associativity) : js_scope.
Notation "m ;; k" := (bind m (fun _ => k))
  (at level 100, k at level 200, right associativity) : js_scope.
Local Open Scope js_scope.

(** A computation keeps a relation between the world before and the world
    after, whenever it returns. *)
Definition keeps {A} (R : World -> World -> Prop) (m : M A) : Prop :=
  forall w a w' fx, m w = Some (a, w', fx) -> R w w'.

Fixpoint for_each {A} (f : A -> M unit) (l : list A) : M unit :=
  match l with
  | [] => ret tt
  | a :: l => f a ;; for_each f l
  end.

(** [setTimeout(onTimeoutHandler.bind(this), this.timeout)]: arms a timer and
    returns its handle. *)
Definition setTimeout : M nat :=
  h <- get_node timer_seq ;;
  update_node (fun r => {| timers := {[ h ]} ∪ timers r; timer_seq := S h;
                           immediates := immediates r; collector := collector r |}) ;;
  ret h.

Definition clearTimeout (h : nat) : M unit :=
  update_node (fun r => set_timers (timers r ∖ {[ h ]}) r).

Definition setImmediate (i : Immediate) : M unit :=
  update_node (fun r => set_immediates (immediates r ++ [i]) r).

Definition listeners (event : string) (s : CheckStream) : list Listener :=
  default [] (_events s !! event).

(** [this.once(event, l)] and [this.on(event, l)]. *)
Definition addListener (event : string) (l : Listener) : M unit :=
  update (fun s => set_events (<[event := listeners event s ++ [l]]> (_events s)) s).

Definition removeAllListeners (event : string) : M unit :=
  update (fun s => set_events (delete event (_events s)) s).

(** Calling one listener: [onFinish] hands its function to [setImmediate],
    a handler of the user is an effect. *)
Definition call (event : string) (arg : option Z) (l : Listener) : M unit :=
  match l with
  | OnFinish => setImmediate FinishImmediate
  | Handler h _ => tell [Call h event arg]
  end.

(** [this.emit(event, arg)]: every listener attached to the event is called
    in order; those attached with [once] are detached as they are called. *)
Definition emit (event : string) (arg : option Z) : M unit :=
  ls <- get (listeners event) ;;
  tell [Emit event arg] ;;
  update (fun s => set_events
                     (<[event := List.filter (fun l => negb (is_once l)) ls]> (_events s)) s) ;;
  for_each (call event arg) ls.

(** [this.hash.update(chunk, encoding)]; throws once the hash is finalized. *)
Definition hash_update (chunk : Buffer) : M unit :=
  h <- get hash ;;
  match hash_digests h with
  | O => update (set_hash (mkHash (hash_algorithm h) (hash_data h ++ chunk) O))
  | S _ => throw
  end.

(** [this.counter.add(n)] on the counter of the collector that
    [this.counter] names. *)
Definition counter_add (n : Z) : M unit :=
  name <- get counter ;;
  update_node (fun r => set_collector
                          (<[name := default 0 (collector r !! name) + n]> (collector r)) r).

(** [opts.collector.counter({ name: ... })]: the counter of that name,
    created at zero when the collector has none. *)
Definition collector_counter (name : string) (c : gmap string Z) : gmap string Z :=
  match c !! name with
  | Some _ => c
  | None => <[name := 0]> c
  end.

(** A JavaScript value that is a boolean or [undefined], and its
    truthiness. *)
Definition truthy (v : option bool) : bool :=
  match v with
  | Some b => b
  | None => false
  end.

(** [this.inbound] as the constructor reads it.  No line assigns that
    property: the constructor stores the other options on [this] but not
    [opts.inbound], [stream.Writable.call(this, opts)] copies no option onto
    [this], and no prototype defines it.  The read gives [undefined]. *)
Definition this_inbound (opts : Options) : option bool := None.

(** [opts.algorithm || 'md5'] *)
Definition algorithm_or_md5 (a : option string) : string :=
  match a with
  | Some a => if String.eqb a "" then "md5"%string else a
  | None => "md5"%string
  end.

(** [onTimeoutHandler], bound to the stream. *)
Definition onTimeoutHandler : M unit := emit "timeout" None.

(** [new CheckStream(opts)], where [now] is [Date.now()] and [c] holds the
    counters of [opts.collector].  The runtime starts with the timer the
    constructor arms and nothing handed to [setImmediate]. *)
Definition new (opts : Options) (now : Z) (c : gmap string Z) : World :=
  let algorithm := algorithm_or_md5 (opt_algorithm opts) in
  let name := if truthy (this_inbound opts) then "muskie_received_bytes"%string
              else "muskie_sent_bytes"%string in
  {| this := {| algorithm := algorithm;
                bytes := 0;
                hash := mkHash algorithm [] O;
                maxBytes := opt_maxBytes opts;
                start := now;
                timeout := opt_timeout opts;
                timer := O;
                counter := name;
                _dead := false;
                _digest := None;
                _events := {[ "finish"%string := [OnFinish] ]} |};
     node := {| timers := {[ O ]};
                timer_seq := 1;
                immediates := [];
                collector := collector_counter name c |} |}.

(** [CheckStream.prototype.abandon] *)
Definition abandon : M unit :=
  update (set_dead true) ;;
  h <- get timer ;;
  clearTimeout h ;;
  removeAllListeners "error" ;;
  removeAllListeners "finish" ;;
  removeAllListeners "length_exceeded" ;;
  removeAllListeners "timeout".

(** [CheckStream.prototype._write(chunk, encoding, cb)] *)
Definition _write (chunk : Buffer) (cb : nat) : M unit :=
  dead <- get _dead ;;
  if dead : bool then tell [Callback cb None]
  else
    h <- get timer ;;
    clearTimeout h ;;
    hash_update chunk ;;
    update (fun s => set_bytes (bytes s + Z.of_nat (List.length chunk)) s) ;;
    counter_add (Z.of_nat (List.length chunk)) ;;
    n <- get bytes ;;
    max <- get maxBytes ;;
    if max <? n then
      emit "length_exceeded" (Some n) ;;
      setImmediate (ExceededImmediate cb)
    else
      h <- setTimeout ;;
      update (set_timer h) ;;
      tell [Callback cb None].

(** [CheckStream.prototype.toString] *)
Definition toString (s : CheckStream) : string :=
  ("[object CheckStream<" ++ algorithm s ++ ">]")%string.

Section Crypto.

(** The digest function of [crypto] (by algorithm, over the data) and
    [Buffer.prototype.toString(encoding)]. *)
Variable hash_fn : string -> Buffer -> Buffer.
Variable buffer_toString : Buffer -> string -> string.

(** [this.hash.digest('buffer')]; throws when the hash is finalized
    already. *)
Definition hash_digest : M Buffer :=
  h <- get hash ;;
  match hash_digests h with
  | O =>
      update (set_hash (mkHash (hash_algorithm h) (hash_data h) 1)) ;;
      ret (hash_fn (hash_algorithm h) (hash_data h))
  | S _ => throw
  end.

(** [if (!this._digest) this._digest = this.hash.digest('buffer');] *)
Definition ensure_digest : M Buffer :=
  d <- get _digest ;;
  match d with
  | Some b => ret b
  | None =>
      b <- hash_digest ;;
      update (set_digest (Some b)) ;;
      ret b
  end.

(** [CheckStream.prototype.digest(encoding)]; an absent or empty
    [encoding] is falsy. *)
Definition digest (encoding : option string) : M DigestResult :=
  h <- get timer ;;
  clearTimeout h ;;
  b <- ensure_digest ;;
  match encoding with
  | Some e => if String.eqb e "" then ret (AsBuffer b)
              else ret (AsString (buffer_toString b e))
  | None => ret (AsBuffer b)
  end.

(** The two functions given to [setImmediate], when the event loop runs
    them. *)
Definition runImmediate (i : Immediate) : M unit :=
  match i with
  | FinishImmediate =>
      ensure_digest ;;
      emit "done" None
  | ExceededImmediate cb =>
      dead <- get _dead ;;
      max <- get maxBytes ;;
      tell [Callback cb (if dead : bool then None else Some (MaxSizeExceededError max))]
  end.

(** What happens to a stream over time.  [stream.Writable] delivers a
    chunk to [_write] or emits [finish]; the event loop fires an armed
    timer or runs the oldest [setImmediate] function; the user of the
    stream attaches a handler, asks for the digest or abandons the
    stream.  A handler that calls [abandon] or [digest] while it is being
    called is the same as the call right after the step: nothing in the
    stream's methods runs after an [emit] but [setImmediate]. *)
Inductive Step : Type :=
| Chunk (chunk : Buffer) (cb : nat)
| Finish
| TimerFires (h : nat)
| Tick
| Listen (event : string) (h : nat) (once : bool)
| Digest (encoding : option string)
| Abandon.

Definition step (st : Step) : M unit :=
  match st with
  | Chunk chunk cb => _write chunk cb
  | Finish => emit "finish" None
  | TimerFires h =>
      live <- get_node timers ;;
      if decide (h ∈ live) then clearTimeout h ;; onTimeoutHandler else ret tt
  | Tick =>
      q <- get_node immediates ;;
      match q with
      | [] => ret tt
      | i :: q => update_node (set_immediates q) ;; runImmediate i
      end
  | Listen event h once => addListener event (Handler h once)
  | Digest encoding => digest encoding ;; ret tt
  | Abandon => abandon
  end.

Definition run (steps : list Step) : M unit := for_each step steps.

End Crypto.

(** *** Observations on effects *)

Definition is_emit (event : string) (e : Effect) : bool :=
  match e with
  | Emit ev _ => String.eqb ev event
  | _ => false
  end.

(** How often an event was emitted. *)
Definition emitted (event : string) (fx : list Effect) : nat :=
  List.length (List.filter (is_emit event) fx).

(** A lifecycle signal reaches the user of the stream: a handler is called,
    or a chunk's callback completes with an error (which [stream.Writable]
    turns into the [error] event). *)
Definition is_signal (e : Effect) : bool :=
  match e with
  | Call _ _ _ => true
  | Callback _ (Some _) => true
  | _ => false
  end.

Definition is_call (e : Effect) : bool :=
  match e with
  | Call _ _ _ => true
  | _ => false
  end.

(** What calling the listeners [ls] of an event amounts to: the handlers of
    the user that are called, and the functions handed to [setImmediate]. *)
Definition calls_of (event : string) (arg : option Z) (ls : list Listener) : list Effect :=
  flat_map (fun l => match l with
                     | Handler h _ => [Call h event arg]
                     | OnFinish => []
                     end) ls.

Definition immediates_of (ls : list Listener) : list Immediate :=
  flat_map (fun l => match l with
                     | OnFinish => [FinishImmediate]
                     | Handler _ _ => []
                     end) ls.

(** The stream still takes chunks: it is not abandoned and its hash is not
    finalized. *)
Definition running (w : World) : Prop :=
  _dead (this w) = false /\ hash_digests (hash (this w)) = O.

(** [_digest] is set exactly when the hash is finalized, and then the hash
    was finalized once. *)
Definition digest_once (w : World) : Prop :=
  match _digest (this w) with
  | None => hash_digests (hash (this w)) = O
  | Some _ => hash_digests (hash (this w)) = 1%nat
  end.

(** Two relations every step keeps, or keeps until the digest is made: an
    abandoned stream stays abandoned; the digest and the count of
    finalizations are as before. *)
Definition stays_dead (w w' : World) : Prop :=
  _dead (this w) = true -> _dead (this w') = true.

Definition same_digest (w w' : World) : Prop :=
  _digest (this w') = _digest (this w) /\
  hash_digests (hash (this w')) = hash_digests (hash (this w)).

(** The signals [abandon] is to silence: the events [done], [timeout],
    [length_exceeded] and [error], emitted or delivered to a handler, and a
    callback completed with an error. *)
Definition lifecycle (event : string) : bool :=
  String.eqb event "done" || String.eqb event "timeout"
  || String.eqb event "length_exceeded" || String.eqb event "error".

Definition is_lifecycle_signal (e : Effect) : bool :=
  match e with
  | Emit event _ => lifecycle event
  | Call _ event _ => lifecycle event
  | Callback _ (Some _) => true
  | Callback _ None => false
  end.

(** What holds of a stream from its construction on: no timer is armed but
    the one in [this.timer], and [onFinish] listens to [finish] only. *)
Definition own_timer (w : World) : Prop :=
  timers (node w) ⊆ {[ timer (this w) ]}.

Definition on_finish_only (w : World) : Prop :=
  forall event, In OnFinish (listeners event (this w)) -> event = "finish"%string.

(** An abandoned stream with nothing left that could signal: it is dead, no
    timer is armed, [onFinish] listens to nothing and its function is not
    waiting in the queue of [setImmediate]. *)
Definition silenced (w : World) : Prop :=
  _dead (this w) = true /\
  timers (node w) = ∅ /\
  (forall event, ~ In OnFinish (listeners event (this w))) /\
  ~ In FinishImmediate (immediates (node w)).

(** No timer is armed that was not, and [this.timer] is the same. *)
Definition no_new_timer (w w' : World) : Prop :=
  timers (node w') ⊆ timers (node w) /\ timer (this w') = timer (this w).

(** A computation whose effects, whenever it returns, satisfy [Q]. *)
Definition yields {A} (Q : list Effect -> Prop) (m : M A) : Prop :=
  forall w a w' fx, m w = Some (a, w', fx) -> Q fx.

(** What the constructor fixes stays fixed: the algorithm (of the stream and
    of its hash), the byte limit, the timeout and the counter. *)
Definition same_settings (w w' : World) : Prop :=
  algorithm (this w') = algorithm (this w) /\
  hash_algorithm (hash (this w')) = hash_algorithm (hash (this w)) /\
  maxBytes (this w') = maxBytes (this w) /\
  timeout (this w') = timeout (this w) /\
  counter (this w') = counter (this w).

(** The bytes counted, the bytes hashed and the counters are as before. *)
Definition same_meter (w w' : World) : Prop :=
  bytes (this w') = bytes (this w) /\
  hash_data (hash (this w')) = hash_data (hash (this w)) /\
  collector (node w') = collector (node w).

(** The meter of a stream created over the counters [c]: the bytes counted
    are the bytes the hash was given, the counter [muskie_sent_bytes] has
    grown by them, and the other counters are those of [c]. *)
Definition metered (c : gmap string Z) (w : World) : Prop :=
  0 <= bytes (this w) /\
  bytes (this w) = Z.of_nat (List.length (hash_data (hash (this w)))) /\
  collector (node w) !! "muskie_sent_bytes"%string
  = Some (default 0 (c !! "muskie_sent_bytes"%string) + bytes (this w)) /\
  forall name, name <> "muskie_sent_bytes"%string ->
               collector (node w) !! name = c !! name.

(** [_dead] is as before. *)
Definition same_dead (w w' : World) : Prop :=
  _dead (this w') = _dead (this w).

(** How many [done] are still to come: [onFinish] while it listens to
    [finish], and its function while it waits in the queue of
    [setImmediate]. *)
Definition is_on_finish (l : Listener) : bool :=
  match l with
  | OnFinish => true
  | Handler _ _ => false
  end.

Definition is_finish_immediate (i : Immediate) : bool :=
  match i with
  | FinishImmediate => true
  | ExceededImmediate _ => false
  end.

Definition pending_done (w : World) : nat :=
  (List.length (List.filter is_on_finish (listeners "finish" (this w)))
   + List.length (List.filter is_finish_immediate (immediates (node w))))%nat.

(** [onFinish] listens to [finish] only, and the [done] still to come are
    no more than before. *)
Definition done_not_added (w w' : World) : Prop :=
  on_finish_only w -> on_finish_only w' /\ (pending_done w' <= pending_done w)%nat.

(** The effects hold no [done]. *)
Definition no_done (fx : list Effect) : Prop := emitted "done" fx = O.

(** Once made, the digest stays. *)
Definition digest_kept (w w' : World) : Prop :=
  _digest (this w) <> None -> _digest (this w') <> None.

Definition total_length (chunks : list Buffer) : Z :=
  fold_right (fun c n => Z.of_nat (List.length c) + n) 0 chunks.

(** Deliver the chunks one after the other; the callbacks are numbered from
    [cb]. *)
Fixpoint write_all (chunks : list Buffer) (cb : nat) : M unit :=
  match chunks with
  | [] => ret tt
  | c :: chunks => _write c cb ;; write_all chunks (S cb)
  end.

End CheckStream.

(** * Properties *)

Lemma Qlt_bool_iff (x y : Q) : Qlt_bool x y = true <-> (x < y)%Q.
Proof.
  unfold Qlt_bool. rewrite negb_true_iff. split.
  - intros H. apply Qnot_le_lt. intros Hle. apply Qle_bool_iff in Hle. congruence.
  - intros H. destruct (Qle_bool y x) eqn:E; [|reflexivity].
    apply Qle_bool_iff in E. exfalso. exact (Qlt_not_le _ _ H E).
Qed.

(** ** The throttle *)
Module ThrottleProps.
Import HrTime Throttle.

(** *** The rate-tracking part of [wait] *)

(** It touches the three rate-tracking fields only. *)
Lemma wait_rate_frame clk self :
  let self' := (wait_rate clk self).1 in
  enabled self' = enabled self /\
  concurrency self' = concurrency self /\
  requestRateCapacity self' = requestRateCapacity self /\
  rateCheckInterval self' = rateCheckInterval self /\
  queueTolerance self' = queueTolerance self /\
  requestQueue self' = requestQueue self /\
  requestsHandled self' = requestsHandled self.
Proof.
  unfold wait_rate, computeRequestRate. simpl.
  destruct (Qlt_bool _ _); [destruct (Qeq_bool _ _)|]; simpl; repeat split.
Qed.

(** It fires no probe but [request_rate_checked]. *)
Lemma wait_rate_effects clk self e :
  In e (wait_rate clk self).2 -> exists r, e = ProbeRequestRateChecked r.
Proof.
  unfold wait_rate, computeRequestRate. simpl.
  destruct (Qlt_bool _ _); [destruct (Qeq_bool _ _)|]; simpl; intros H;
    repeat destruct H as [H|H]; try contradiction; subst; eauto.
Qed.

Lemma wait_rate_no_next clk self next err :
  ~ In (CallNext next err) (wait_rate clk self).2.
Proof. intros H. apply wait_rate_effects in H as [r Hr]. discriminate. Qed.

Lemma wait_rate_no_throttled clk self n r u m :
  ~ In (ProbeRequestThrottled n r u m) (wait_rate clk self).2.
Proof. intros H. apply wait_rate_effects in H as [r' Hr]. discriminate. Qed.

Lemma over_capacity_iff self :
  over_capacity self = true <->
  (requestRateCapacity self < mostRecentRequestRate self)%Q /\
  queueTolerance self <= Z.of_nat (WorkQueue.length (requestQueue self)).
Proof.
  unfold over_capacity. rewrite andb_true_iff, Qlt_bool_iff, Z.leb_le. reflexivity.
Qed.

(** *** The three ways out of [wait] *)

(** The request is turned away. *)
Lemma wait_reject clk req next self :
  over_capacity (wait_rate clk self).1 = true -> enabled self = true ->
  wait clk req next self =
    let self1 := (wait_rate clk self).1 in
    (self1, req,
     (((wait_rate clk self).2
       ++ [ProbeRequestReceived (method req) (url req) (WorkQueue.length (requestQueue self))])
       ++ [ProbeRequestThrottled (WorkQueue.length (requestQueue self))
                                 (mostRecentRequestRate self1) (url req) (method req)])
       ++ [CallNext next (Some ThrottledError)]).
Proof.
  intros Hover Hen. unfold wait.
  pose proof (wait_rate_frame clk self) as (He & _ & _ & _ & _ & Hq & _).
  destruct (wait_rate clk self) as [self1 fx1]. simpl in *.
  rewrite Hover, He, Hen, Hq. reflexivity.
Qed.

(** The request goes into the queue. *)
Lemma wait_enqueue clk req next self :
  over_capacity (wait_rate clk self).1 = false -> enabled self = true ->
  wait clk req next self =
    let self1 := (wait_rate clk self).1 in
    let q := WorkQueue.push (WorkQueue.mkTask next) (requestQueue self) in
    (set_requestQueue q self1, set_throttleStartTime (now_start clk) req,
     ((wait_rate clk self).2
      ++ [ProbeRequestReceived (method req) (url req) (WorkQueue.length (requestQueue self))])
      ++ [ProbeQueueStatus (List.length (WorkQueue.queued q)) (WorkQueue.npending q)]).
Proof.
  intros Hover Hen. unfold wait, wait_rest.
  pose proof (wait_rate_frame clk self) as (He & _ & _ & _ & _ & Hq & _).
  destruct (wait_rate clk self) as [self1 fx1]. simpl in *.
  rewrite Hover, He, Hen, Hq. reflexivity.
Qed.

(** The throttle is passive: [next] is called at once. *)
Lemma wait_passive clk req next self :
  enabled self = false ->
  wait clk req next self =
    let self1 := (wait_rate clk self).1 in
    let fx := (wait_rate clk self).2
              ++ [ProbeRequestReceived (method req) (url req)
                                       (WorkQueue.length (requestQueue self))] in
    let fx := if over_capacity self1
              then fx ++ [ProbeRequestThrottled (WorkQueue.length (requestQueue self))
                                                (mostRecentRequestRate self1)
                                                (url req) (method req)]
              else fx in
    (self1, set_throttleStartTime (now_start clk) req,
     (fx ++ [CallNext next None])
     ++ [ProbeQueueStatus (List.length (WorkQueue.queued (requestQueue self)))
                          (WorkQueue.npending (requestQueue self))]).
Proof.
  intros Hen. unfold wait, wait_rest.
  pose proof (wait_rate_frame clk self) as (He & _ & _ & _ & _ & Hq & _).
  destruct (wait_rate clk self) as [self1 fx1]. simpl in *.
  rewrite He, Hen, Hq. destruct (over_capacity self1); reflexivity.
Qed.

(** [wait] leaves the cached rate as its first part computed it. *)
Lemma wait_rate_kept clk req next self :
  mostRecentRequestRate (wait clk req next self).1.1
  = mostRecentRequestRate (wait_rate clk self).1.
Proof.
  destruct (enabled self) eqn:Hen.
  - destruct (over_capacity (wait_rate clk self).1) eqn:Hov.
    + rewrite wait_reject by assumption. reflexivity.
    + rewrite wait_enqueue by assumption. reflexivity.
  - rewrite wait_passive by assumption. reflexivity.
Qed.

Ltac in_effects :=
  repeat first
    [ progress (rewrite in_app_iff in * )
    | progress (simpl in * )
    | match goal with
      | H : _ \/ _ |- _ => destruct H
      | H : In _ (wait_rate _ _).2 |- _ => apply wait_rate_effects in H as [? ?]
      | H : In _ (if ?b then _ else _) |- _ => destruct b
      | H : False |- _ => contradiction
      | H : _ = _ |- _ => discriminate H
      end ].

(** C1. [wait] turns a request away exactly when the cached rate (as this
    call left it) is above [requestRateCapacity], the queue holds at least
    [queueTolerance] items (running and waiting together) and the throttle
    is enabled.  Turning away means: [next] is called with a
    [ThrottledError], this is the last thing [wait] does, [next] is not
    called without an error, and nothing enters the queue, so the work item
    never runs.  With a rate at or below the capacity no request is turned
    away, whatever the queue holds. *)
Theorem wait_rejects_iff clk req next self :
  let self' := (wait clk req next self).1.1 in
  let fx := (wait clk req next self).2 in
  (rejects next fx <->
     (requestRateCapacity self < mostRecentRequestRate self')%Q /\
     queueTolerance self <= Z.of_nat (WorkQueue.length (requestQueue self)) /\
     enabled self = true) /\
  (rejects next fx ->
     (exists fx0, fx = fx0 ++ [CallNext next (Some ThrottledError)]) /\
     ~ In (CallNext next None) fx /\
     requestQueue self' = requestQueue self) /\
  ((mostRecentRequestRate self' <= requestRateCapacity self)%Q -> ~ rejects next fx).
Proof.
  intros self' fx.
  assert (Hiff : rejects next fx <->
            over_capacity (wait_rate clk self).1 = true /\ enabled self = true).
  { subst self' fx. unfold rejects.
    destruct (enabled self) eqn:Hen.
    - destruct (over_capacity (wait_rate clk self).1) eqn:Hov.
      + rewrite wait_reject by assumption. simpl. split; [auto|].
        intros _. rewrite !in_app_iff. simpl. auto.
      + rewrite wait_enqueue by assumption. simpl. split; [|intros [? _]; discriminate].
        intros H. in_effects.
    - rewrite wait_passive by assumption. simpl. split; [|intros [_ ?]; discriminate].
      intros H. in_effects. }
  pose proof (wait_rate_frame clk self) as (_ & _ & Hc & _ & Ht & Hq & _).
  assert (Hov : over_capacity (wait_rate clk self).1 = true <->
            (requestRateCapacity self < mostRecentRequestRate self')%Q /\
            queueTolerance self <= Z.of_nat (WorkQueue.length (requestQueue self))).
  { rewrite over_capacity_iff. subst self'. rewrite wait_rate_kept.
    simpl in *. rewrite Hc, Ht, Hq. reflexivity. }
  split; [|split].
  - rewrite Hiff, Hov. tauto.
  - intros H. apply Hiff in H as [H1 H2]. subst self' fx.
    rewrite wait_reject by assumption. simpl. split; [eauto|]. split; [|exact Hq].
    intros H. in_effects.
  - intros Hle H. apply Hiff in H as [H1 _]. apply Hov in H1 as [H1 _].
    exact (Qle_not_lt _ _ Hle H1).
Qed.

(** *** The passive throttle *)

Lemma wait_rate_filter (p : Effect -> bool) clk self :
  (forall r, p (ProbeRequestRateChecked r) = false) ->
  List.filter p (wait_rate clk self).2 = [].
Proof.
  intros Hp. unfold wait_rate, computeRequestRate. simpl.
  destruct (Qlt_bool _ _); [destruct (Qeq_bool _ _)|]; simpl; rewrite ?Hp; reflexivity.
Qed.

Lemma wait_rate_set_enabled v clk self :
  wait_rate clk (set_enabled v self)
  = (set_enabled v (wait_rate clk self).1, (wait_rate clk self).2).
Proof.
  unfold wait_rate, computeRequestRate. simpl.
  destruct (Qlt_bool _ _); [destruct (Qeq_bool _ _)|]; reflexivity.
Qed.

Lemma over_capacity_set_enabled v self :
  over_capacity (set_enabled v self) = over_capacity self.
Proof. reflexivity. Qed.

(** The [request_throttled] probes of a call of [wait] do not depend on
    [enabled]. *)
Lemma wait_throttled_probes clk req next self :
  List.filter is_throttled_probe (wait clk req next self).2
  = if over_capacity (wait_rate clk self).1
    then [ProbeRequestThrottled (WorkQueue.length (requestQueue self))
                                (mostRecentRequestRate (wait_rate clk self).1)
                                (url req) (method req)]
    else [].
Proof.
  destruct (enabled self) eqn:Hen.
  - destruct (over_capacity (wait_rate clk self).1) eqn:Hov.
    + rewrite wait_reject by assumption. simpl.
      rewrite !List.filter_app, wait_rate_filter by reflexivity. reflexivity.
    + rewrite wait_enqueue by assumption. simpl.
      rewrite !List.filter_app, wait_rate_filter by reflexivity. reflexivity.
  - rewrite wait_passive by assumption. simpl.
    destruct (over_capacity (wait_rate clk self).1);
      rewrite !List.filter_app, wait_rate_filter by reflexivity; reflexivity.
Qed.

(** C4. With [enabled = false], [wait] never queues and never turns a
    request away: the queue is left as it is, [next] is called exactly once,
    inside [wait] and without an error, and never with an error.  When the
    rate is above the capacity and the queue at or above the tolerance, the
    [request_throttled] probe fires all the same, and with the arguments it
    has for the enabled throttle in the same state. *)
Theorem wait_disabled_passes_through clk req next self :
  enabled self = false ->
  let self' := (wait clk req next self).1.1 in
  let fx := (wait clk req next self).2 in
  requestQueue self' = requestQueue self /\
  List.filter is_call_next fx = [CallNext next None] /\
  (forall k e, ~ In (CallNext k (Some e)) fx) /\
  ((requestRateCapacity self < mostRecentRequestRate self')%Q ->
   queueTolerance self <= Z.of_nat (WorkQueue.length (requestQueue self)) ->
   In (ProbeRequestThrottled (WorkQueue.length (requestQueue self))
                             (mostRecentRequestRate self') (url req) (method req)) fx) /\
  List.filter is_throttled_probe fx
  = List.filter is_throttled_probe (wait clk req next (set_enabled true self)).2.
Proof.
  intros Hen self' fx.
  pose proof (wait_rate_frame clk self) as (_ & _ & Hc & _ & Ht & Hq & _).
  split; [|split; [|split; [|split]]].
  - subst self'. rewrite wait_passive by assumption. exact Hq.
  - subst fx. rewrite wait_passive by assumption. simpl.
    destruct (over_capacity (wait_rate clk self).1);
      rewrite !List.filter_app, wait_rate_filter by reflexivity; reflexivity.
  - intros k e H. subst fx. rewrite wait_passive in H by assumption. in_effects.
  - intros Hrate Hlen.
    assert (Hov : over_capacity (wait_rate clk self).1 = true).
    { apply over_capacity_iff. subst self'. rewrite wait_rate_kept in Hrate.
      simpl in *. rewrite Hc, Ht, Hq. auto. }
    subst self' fx. rewrite wait_passive by assumption. simpl. rewrite Hov.
    rewrite !in_app_iff. simpl. tauto.
  - subst fx. rewrite !wait_throttled_probes, wait_rate_set_enabled. reflexivity.
Qed.

(** *** The frame of a rejection *)

Lemma wait_rate_not_due clk self :
  check_due clk self = false ->
  wait_rate clk self
  = (set_requestsPerCheckInterval (requestsPerCheckInterval self + 1) self, []).
Proof. unfold check_due, wait_rate. simpl. intros ->. reflexivity. Qed.

Lemma wait_rate_due clk self :
  check_due clk self = true ->
  requestsPerCheckInterval (wait_rate clk self).1 = 0 /\
  (wait_rate clk self).2
  = [ProbeRequestRateChecked (mostRecentRequestRate (wait_rate clk self).1)].
Proof.
  unfold check_due, wait_rate, computeRequestRate. simpl. intros ->.
  destruct (Qeq_bool _ _); simpl; auto.
Qed.

Lemma wait_rate_changes clk self :
  let self' := (wait_rate clk self).1 in
  self' = set_lastCheck (lastCheck self')
            (set_mostRecentRequestRate (mostRecentRequestRate self')
               (set_requestsPerCheckInterval (requestsPerCheckInterval self') self)).
Proof.
  unfold wait_rate, computeRequestRate. simpl.
  destruct (Qlt_bool _ _); [destruct (Qeq_bool _ _)|]; simpl; destruct self; reflexivity.
Qed.

(** C10. When the enabled throttle turns a request away, the throttle
    differs from the one before the call in the three rate-tracking fields
    at most: [requestsPerCheckInterval] (one more, or zero when the rate was
    computed again) and, only when the rate was computed again,
    [mostRecentRequestRate] and [lastCheck].  The queue is the one before
    the call and the request is returned as it came, so a request that came
    without [throttleStartTime] still has none and [computeRequestLatency]
    fails its assertion on it. *)
Theorem wait_reject_frame clk req next self :
  enabled self = true ->
  rejects next (wait clk req next self).2 ->
  let self' := (wait clk req next self).1.1 in
  let req' := (wait clk req next self).1.2 in
  self' = set_lastCheck (lastCheck self')
            (set_mostRecentRequestRate (mostRecentRequestRate self')
               (set_requestsPerCheckInterval (requestsPerCheckInterval self') self)) /\
  (check_due clk self = false ->
     requestsPerCheckInterval self' = requestsPerCheckInterval self + 1 /\
     mostRecentRequestRate self' = mostRecentRequestRate self /\
     lastCheck self' = lastCheck self) /\
  (check_due clk self = true -> requestsPerCheckInterval self' = 0) /\
  requestQueue self' = requestQueue self /\
  req' = req /\
  (throttleStartTime req = None ->
     forall now, computeRequestLatency now (Some req') self' = None).
Proof.
  intros Hen Hrej self' req'.
  assert (Hov : over_capacity (wait_rate clk self).1 = true).
  { destruct (over_capacity (wait_rate clk self).1) eqn:Hov; [reflexivity|].
    unfold rejects in Hrej. rewrite wait_enqueue in Hrej by assumption. in_effects. }
  subst self' req'. rewrite wait_reject by assumption. simpl.
  pose proof (wait_rate_frame clk self) as (_ & _ & _ & _ & _ & Hq & _).
  split; [apply wait_rate_changes|]. split; [|split; [|split; [|split]]].
  - intros Hdue. rewrite wait_rate_not_due by assumption. simpl. auto.
  - intros Hdue. apply wait_rate_due. assumption.
  - exact Hq.
  - reflexivity.
  - intros Hnone now. unfold computeRequestLatency. rewrite Hnone. reflexivity.
Qed.

End ThrottleProps.

(** ** The work queue *)
Module WorkQueueProps.
Import WorkQueue.

Lemma create_inv c : 0 <= c -> Inv (create c).
Proof.
  intros Hc. split; simpl; try easy.
  - constructor.
Qed.

Lemma nodup_order q : Inv q -> NoDup (started q ++ map id (queued q)).
Proof. intros H. rewrite (inv_order q H). apply NoDup_seq. Qed.

Lemma push_inv w q : Inv q -> Inv (push w q).
Proof.
  intros H. pose proof (nodup_order q H) as Hnd.
  destruct H as [Hb Hf Ho Hr Hn]. unfold push, npending in *. simpl.
  destruct (Z.ltb_spec (Z.of_nat (List.length (pending q))) (concurrency q)) as [Hlt|Hge].
  - assert (Hq : queued q = []).
    { destruct (queued q) eqn:E; [reflexivity|]. exfalso.
      assert (Z.of_nat (List.length (pending q)) = concurrency q) by (apply Hf; discriminate).
      lia. }
    rewrite Hq in *. simpl in *. rewrite app_nil_r in *.
    split; unfold npending; simpl.
    + rewrite length_app. simpl. lia.
    + intros []. reflexivity.
    + change (1%nat :: seq 2 (nextid q)) with (seq 1 (S (nextid q))).
      rewrite List.seq_S, app_nil_r, Ho. reflexivity.
    + rewrite map_app. simpl. intros x Hx. apply in_app_iff in Hx as [Hx|Hx].
      * apply in_app_iff. left. auto.
      * apply in_app_iff. right. exact Hx.
    + rewrite map_app. simpl. apply NoDup_app. split; [exact Hn|]. split.
      * intros x Hx%list_elem_of_In Hx'%list_elem_of_In. destruct Hx' as [<-|[]].
        apply Hr in Hx. rewrite Ho in Hx. apply in_seq in Hx. lia.
      * apply NoDup_singleton.
  - split; unfold npending; simpl.
    + exact Hb.
    + intros _. lia.
    + change (1%nat :: seq 2 (nextid q)) with (seq 1 (S (nextid q))).
      rewrite List.seq_S, map_app, app_assoc, Ho. reflexivity.
    + exact Hr.
    + exact Hn.
Qed.

Lemma is_pending_In i q : is_pending i q = true <-> In i (map id (pending q)).
Proof.
  unfold is_pending. rewrite existsb_exists, in_map_iff. split.
  - intros (e & He & Heq). apply Nat.eqb_eq in Heq. eauto.
  - intros (e & Heq & He). exists e. split; [assumption|]. apply Nat.eqb_eq. assumption.
Qed.

(** Taking the one entry of id [i] out of a list without repeated ids. *)
Lemma filter_out_length i (l : list Entry) :
  NoDup (map id l) -> In i (map id l) ->
  S (List.length (List.filter (fun e => negb (Nat.eqb (id e) i)) l)) = List.length l.
Proof.
  induction l as [|e l IH]; simpl; [contradiction|].
  intros Hnd Hin. apply NoDup_cons in Hnd as [Hnotin Hnd].
  destruct (Nat.eqb_spec (id e) i) as [Heq|Hne]; simpl.
  - f_equal. subst i. clear IH Hin Hnd. induction l as [|e' l IH]; simpl; [reflexivity|].
    destruct (Nat.eqb_spec (id e') (id e)) as [Heq|Hne]; simpl.
    + exfalso. apply Hnotin. apply list_elem_of_In. left. assumption.
    + f_equal. apply IH. intros H. apply Hnotin. apply list_elem_of_In. right.
      apply list_elem_of_In. assumption.
  - f_equal. apply IH; [assumption|]. destruct Hin; [contradiction|assumption].
Qed.

Lemma filter_out_incl i (l : list Entry) :
  incl (map id (List.filter (fun e => negb (Nat.eqb (id e) i)) l)) (map id l).
Proof.
  intros x Hx. apply in_map_iff in Hx as (e & <- & He). apply List.filter_In in He as [He _].
  apply in_map. assumption.
Qed.

Lemma filter_out_nodup i (l : list Entry) :
  NoDup (map id l) -> NoDup (map id (List.filter (fun e => negb (Nat.eqb (id e) i)) l)).
Proof.
  induction l as [|e l IH]; simpl; [auto|].
  intros Hnd. apply NoDup_cons in Hnd as [Hnotin Hnd].
  destruct (negb _); simpl; [|auto].
  apply NoDup_cons. split; [|auto].
  intros H%list_elem_of_In. apply Hnotin, list_elem_of_In. eapply filter_out_incl. eassumption.
Qed.

Lemma complete_inv i q : Inv q -> Inv (complete i q).
Proof.
  intros H. pose proof (nodup_order q H) as Hnd.
  destruct H as [Hb Hf Ho Hr Hn]. unfold complete.
  destruct (is_pending i q) eqn:Hp; [|split; assumption].
  apply is_pending_In in Hp.
  pose proof (filter_out_length i (pending q) Hn Hp) as Hlen.
  unfold npending in *. simpl.
  destruct (queued q) as [|e rest] eqn:Hq; simpl.
  - split; unfold npending; simpl; rewrite ?Hq.
    + lia.
    + intros []. reflexivity.
    + simpl in *. exact Ho.
    + intros x Hx. apply Hr. eapply filter_out_incl. eassumption.
    + apply filter_out_nodup. assumption.
  - assert (Hfull : Z.of_nat (List.length (pending q)) = concurrency q)
      by (apply Hf; discriminate).
    split; unfold npending; simpl.
    + rewrite length_app. simpl. lia.
    + intros _. rewrite length_app. simpl. lia.
    + rewrite <- Ho. simpl. rewrite <- app_assoc. reflexivity.
    + rewrite map_app. simpl. intros x Hx. apply in_app_iff in Hx as [Hx|Hx].
      * apply in_app_iff. left. apply Hr. eapply filter_out_incl. eassumption.
      * apply in_app_iff. right. exact Hx.
    + rewrite map_app. simpl. apply NoDup_app. split; [apply filter_out_nodup; assumption|].
      split; [|apply NoDup_singleton].
      intros x Hx%list_elem_of_In Hx'%list_elem_of_In. destruct Hx' as [<-|[]].
      apply filter_out_incl, Hr in Hx. simpl in Hnd.
      apply NoDup_app in Hnd as (_ & Hdisj & _).
      apply (Hdisj (id e)); apply list_elem_of_In; [assumption|]. left. reflexivity.
Qed.

Lemma run_inv ops q : Inv q -> Inv (run ops q).
Proof.
  revert q. induction ops as [|o ops IH]; intros q H; simpl; [assumption|].
  apply IH. destruct o; simpl; [apply push_inv|apply complete_inv]; assumption.
Qed.

Lemma run_concurrency ops q : concurrency (run ops q) = concurrency q.
Proof.
  revert q. induction ops as [|o ops IH]; intros q; simpl; [reflexivity|].
  rewrite IH. destruct o; simpl.
  - unfold push. destruct (_ <? _); reflexivity.
  - unfold complete. destruct (is_pending _ _); [|reflexivity]. simpl.
    destruct (queued q); reflexivity.
Qed.

(** The completion of a running item while items wait. *)
Lemma complete_starts_oldest i q e rest :
  is_pending i q = true -> queued q = e :: rest ->
  queued (complete i q) = rest /\
  In e (pending (complete i q)) /\
  started (complete i q) = started q ++ [id e].
Proof.
  intros Hp Hq. unfold complete. rewrite Hp. simpl. rewrite Hq. simpl.
  split; [reflexivity|]. split; [|reflexivity].
  apply in_app_iff. right. left. reflexivity.
Qed.

(** C3. For every pattern of submissions and completions on a queue of
    [concurrency] slots, however long the bursts: no more than [concurrency]
    items run at a time; the items that have begun running, followed by those
    still waiting, are exactly the submitted items in the order of their
    submission (so items start first in, first out, none is lost and none
    starts twice); and when a running item completes while items wait, the
    oldest waiting item leaves the waiting sequence and begins running, the
    others keeping their order. *)
Theorem queue_bounded_fifo (c : Z) (ops : list Op) :
  0 < c ->
  let q := run ops (create c) in
  Z.of_nat (npending q) <= c /\
  started q ++ map id (queued q) = seq 1 (nextid q) /\
  (forall i e rest,
      is_pending i q = true -> queued q = e :: rest ->
      queued (complete i q) = rest /\
      In e (pending (complete i q)) /\
      started (complete i q) = started q ++ [id e] /\
      Z.of_nat (npending (complete i q)) <= c).
Proof.
  intros Hc q.
  assert (HI : Inv q) by (apply run_inv, create_inv; lia).
  assert (Hcc : concurrency q = c) by (unfold q; rewrite run_concurrency; reflexivity).
  split; [|split].
  - rewrite <- Hcc. apply (inv_bound q HI).
  - apply (inv_order q HI).
  - intros i e rest Hp Hq.
    destruct (complete_starts_oldest i q e rest Hp Hq) as (H1 & H2 & H3).
    repeat split; try assumption.
    pose proof (inv_bound _ (complete_inv i q HI)) as Hb.
    replace (concurrency (complete i q)) with c in Hb; [exact Hb|].
    change (complete i q) with (run [Complete i] q). rewrite run_concurrency. congruence.
Qed.

Lemma queue_bounded_fifo_witness :
  let q := run [Submit (mkTask 1); Submit (mkTask 2); Submit (mkTask 3);
                Complete 1; Submit (mkTask 4)] (create 1) in
  Z.of_nat (npending q) <= 1 /\
  started q ++ map id (queued q) = seq 1 (nextid q) /\
  (forall i e rest,
      is_pending i q = true -> queued q = e :: rest ->
      queued (complete i q) = rest /\
      In e (pending (complete i q)) /\
      started (complete i q) = started q ++ [id e] /\
      Z.of_nat (npending (complete i q)) <= 1).
Proof. apply (queue_bounded_fifo 1); lia. Defined.

End WorkQueueProps.

(** ** The throttle and its queue over time *)
Module ThrottleRunProps.
Import HrTime Throttle ThrottleProps.

(** A call of [wait] submits at most one item to the queue. *)
Lemma wait_queue clk req next self :
  exists ops, requestQueue (wait clk req next self).1.1 = WorkQueue.run ops (requestQueue self).
Proof.
  pose proof (wait_rate_frame clk self) as (_ & _ & _ & _ & _ & Hq & _).
  destruct (enabled self) eqn:Hen.
  - destruct (over_capacity (wait_rate clk self).1) eqn:Hov.
    + exists []. rewrite wait_reject by assumption. exact Hq.
    + exists [WorkQueue.Submit (WorkQueue.mkTask next)].
      rewrite wait_enqueue by assumption. reflexivity.
  - exists []. rewrite wait_passive by assumption. exact Hq.
Qed.

Lemma handle_queue ev self :
  exists ops, requestQueue (handle ev self).1 = WorkQueue.run ops (requestQueue self).
Proof.
  destruct ev as [clk req next|i]; simpl.
  - destruct (wait_queue clk req next self) as [ops Hops]. exists ops.
    destruct (wait clk req next self) as [[self' req'] fx]. exact Hops.
  - unfold runWorker. destruct (WorkQueue.find_pending i (requestQueue self)).
    + exists [WorkQueue.Complete i]. reflexivity.
    + exists []. reflexivity.
Qed.

Lemma run_queue evs self :
  exists ops, requestQueue (run evs self).1 = WorkQueue.run ops (requestQueue self).
Proof.
  revert self. induction evs as [|ev evs IH]; intros self; simpl.
  - exists []. reflexivity.
  - destruct (handle_queue ev self) as [ops1 H1].
    destruct (handle ev self) as [self1 fx1]. simpl in H1.
    destruct (IH self1) as [ops2 H2].
    destruct (run evs self1) as [self2 fx2]. simpl in *.
    exists (ops1 ++ ops2). rewrite H2, H1. unfold WorkQueue.run.
    rewrite fold_left_app. reflexivity.
Qed.

(** The queue of a throttle never runs more than the [concurrency] of the
    throttle's options, whatever requests arrive and whenever the workers
    run, and starts items in the order of their arrival. *)
Lemma throttle_queue_bounded opts now th evs :
  createThrottle opts now = Some th ->
  let q := requestQueue (run evs th).1 in
  Z.of_nat (WorkQueue.npending q) <= opt_concurrency opts /\
  WorkQueue.started q ++ map WorkQueue.id (WorkQueue.queued q)
  = seq 1 (WorkQueue.nextid q).
Proof.
  intros H q. unfold createThrottle in H.
  destruct (0 <? opt_concurrency opts) eqn:Hc; [|discriminate].
  apply Z.ltb_lt in Hc.
  destruct (_ && _) in H; [|discriminate]. inversion H; subst th; clear H.
  destruct (run_queue evs
              {| enabled := opt_enabled opts; concurrency := opt_concurrency opts;
                 requestRateCapacity := opt_requestRateCapacity opts;
                 rateCheckInterval := opt_rateCheckInterval opts;
                 queueTolerance := opt_queueTolerance opts;
                 requestQueue := WorkQueue.create (opt_concurrency opts);
                 lastCheck := now; mostRecentRequestRate := 0;
                 requestsPerCheckInterval := 0; requestsHandled := 0 |}) as [ops Hops].
  simpl in Hops. subst q. rewrite Hops.
  assert (HI : WorkQueue.Inv (WorkQueue.run ops (WorkQueue.create (opt_concurrency opts))))
    by (apply WorkQueueProps.run_inv, WorkQueueProps.create_inv; lia).
  split; [|apply (WorkQueue.inv_order _ HI)].
  pose proof (WorkQueue.inv_bound _ HI) as Hb.
  rewrite WorkQueueProps.run_concurrency in Hb. exact Hb.
Qed.

(** *** The time the throttle measures *)

Lemma since_nsec_range now prev :
  wf now -> wf prev -> 0 <= (since now prev).2 < NS_PER_SEC.
Proof.
  unfold wf, since, NS_PER_SEC. intros [_ H1] [_ H2]. simpl.
  destruct (Z.ltb_spec (now.2 - prev.2) 0); simpl; lia.
Qed.

Lemma div_1e9_lt_1 x : x < NS_PER_SEC -> (div_1e9 x < 1)%Q.
Proof.
  intros H. unfold div_1e9. apply Qlt_shift_div_r.
  - reflexivity.
  - rewrite Qmult_1_l. rewrite <- Zlt_Qlt. exact H.
Qed.

(** With an interval of a second or more the throttle never computes the
    rate again: what it compares with the interval is under one second. *)
Lemma check_never_due clk self :
  wf (now_wait clk) -> wf (lastCheck self) ->
  (1 <= rateCheckInterval self)%Q ->
  check_due clk self = false.
Proof.
  intros Hn Hl Hi. unfold check_due.
  destruct (Qlt_bool _ _) eqn:E; [|reflexivity].
  apply Qlt_bool_iff in E. exfalso.
  pose proof (since_nsec_range _ _ Hn Hl) as [_ Hr].
  apply div_1e9_lt_1 in Hr.
  apply (Qlt_irrefl 1). eapply Qle_lt_trans; [exact Hi|]. eapply Qlt_trans; eassumption.
Qed.

(** C2, on an input where the code departs from it.  A throttle is created
    at time 10 s with an interval of 1 s (or of 1/4 s) and counts four
    requests in its first 200 ms; the fifth request arrives at 12.5 s, that
    is 2.5 s after [lastCheck].  With the interval of 1 s the rate is due
    (2.5 s > 1 s) but [wait] computes nothing: the rate stays 0, the counter
    goes to 5 and [lastCheck] stays.  With the interval of 1/4 s it computes
    the rate, as 5 requests over 0.5 s = 10 per second, where 5 requests
    over the 2.5 s elapsed are 2 per second. *)
Theorem wait_rate_drops_whole_seconds :
  let req := mkRequest "GET" "/" None in
  let at_ns n := mkClock (10, n) (10, n) (10, n) in
  let first_four := [Arrive (at_ns 50000000) req 1; Arrive (at_ns 100000000) req 2;
                     Arrive (at_ns 150000000) req 3; Arrive (at_ns 200000000) req 4] in
  let clk := mkClock (12, 500000000) (12, 500000000) (12, 500000000) in
  (exists th0,
      createThrottle (mkOptions true 1 10 1 2) (10, 0) = Some th0 /\
      let th := (run first_four th0).1 in
      let th' := (wait clk req 5 th).1.1 in
      requestsPerCheckInterval th = 4 /\
      (total_seconds (since (now_wait clk) (lastCheck th)) == 5 # 2)%Q /\
      (rateCheckInterval th < total_seconds (since (now_wait clk) (lastCheck th)))%Q /\
      mostRecentRequestRate th' = 0%Q /\
      requestsPerCheckInterval th' = 5 /\
      lastCheck th' = (10, 0)) /\
  (exists th0,
      createThrottle (mkOptions true 1 10 (1 # 4) 2) (10, 0) = Some th0 /\
      let th := (run first_four th0).1 in
      let th' := (wait clk req 5 th).1.1 in
      requestsPerCheckInterval th = 4 /\
      (total_seconds (since (now_wait clk) (lastCheck th)) == 5 # 2)%Q /\
      (mostRecentRequestRate th' == 10)%Q /\
      (5 / total_seconds (since (now_wait clk) (lastCheck th)) == 2)%Q /\
      requestsPerCheckInterval th' = 0 /\
      lastCheck th' = (12, 500000000)).
Proof.
  split; eexists; (split; [reflexivity|]); vm_compute; repeat split; congruence.
Qed.

(** *** The passive throttle over time *)

(** X8.  A throttle created with [enabled = false] never puts anything
    into its queue, so the queue is empty at every call of [wait], below
    any [queueTolerance], and the [request_throttled] probe of the passive
    throttle stays silent. *)
Lemma passive_queue_stays_empty opts now th evs :
  createThrottle opts now = Some th ->
  opt_enabled opts = false ->
  let th' := (run evs th).1 in
  enabled th' = false /\
  requestQueue th' = WorkQueue.create (opt_concurrency opts) /\
  forall clk req next, List.filter is_throttled_probe (wait clk req next th').2 = [].
Proof.
  intros Hc Hen th'.
  assert (H0 : enabled th = false /\
               requestQueue th = WorkQueue.create (opt_concurrency opts) /\
               0 < queueTolerance th).
  { unfold createThrottle in Hc.
    destruct (0 <? opt_queueTolerance opts) eqn:Ht;
      [|rewrite andb_false_r in Hc; discriminate].
    destruct (_ && _) in Hc; [|discriminate]. injection Hc as <-. simpl.
    apply Z.ltb_lt in Ht. auto. }
  clear Hc.
  assert (H : enabled th' = false /\
              requestQueue th' = WorkQueue.create (opt_concurrency opts) /\
              0 < queueTolerance th').
  { subst th'. revert th H0. induction evs as [|ev evs IH]; intros th H0; [exact H0|].
    simpl. destruct (handle ev th) as [th1 fx1] eqn:Hh.
    specialize (IH th1). destruct (run evs th1) as [th2 fx2]. simpl in *.
    apply IH. clear IH. destruct H0 as (He & Hq & Ht).
    destruct ev as [clk req next|i]; simpl in Hh.
    - pose proof (wait_rate_frame clk th) as (He1 & _ & _ & _ & Ht1 & Hq1 & _).
      rewrite wait_passive in Hh by assumption. injection Hh as <- _. simpl in *.
      repeat split; congruence.
    - unfold runWorker in Hh. rewrite Hq in Hh. simpl in Hh. injection Hh as <- _. auto. }
  destruct H as (He & Hq & Ht). split; [exact He|]. split; [exact Hq|].
  intros clk req next. rewrite wait_throttled_probes.
  destruct (over_capacity (wait_rate clk th').1) eqn:Hov; [|reflexivity].
  apply over_capacity_iff in Hov as [_ Hlen].
  pose proof (wait_rate_frame clk th') as (_ & _ & _ & _ & Ht1 & Hq1 & _).
  simpl in *. rewrite Ht1, Hq1, Hq in Hlen.
  change (WorkQueue.length (WorkQueue.create (opt_concurrency opts))) with O in Hlen.
  simpl in Hlen. lia.
Qed.

(** *** Witnesses *)

(** A throttle of capacity 5 per second and tolerance 2, with one request
    running and two waiting, gets a fourth request 0.6 s after its creation:
    the rate is computed as 4 / 0.6 and the request is turned away; the same
    throttle switched to passive lets it through. *)
Lemma wait_rejects_iff_witness :
  let req := mkRequest "GET" "/" None in
  let at_ns n := mkClock (10, n) (10, n) (10, n) in
  let new := {| enabled := true; concurrency := 1; requestRateCapacity := 5;
                rateCheckInterval := 1 # 2; queueTolerance := 2;
                requestQueue := WorkQueue.create 1; lastCheck := (10, 0);
                mostRecentRequestRate := 0; requestsPerCheckInterval := 0;
                requestsHandled := 0 |} in
  let self := (run [Arrive (at_ns 100000000) req 1; Arrive (at_ns 200000000) req 2;
                    Arrive (at_ns 300000000) req 3] new).1 in
  rejects 4 (wait (at_ns 600000000) req 4 self).2 /\
  ~ rejects 4 (wait (at_ns 600000000) req 4 (set_enabled false self)).2.
Proof.
  intros req at_ns new self. split.
  - destruct (wait_rejects_iff (at_ns 600000000) req 4%nat self) as [[_ H] _].
    apply H. vm_compute. repeat split; discriminate.
  - destruct (wait_rejects_iff (at_ns 600000000) req 4%nat (set_enabled false self))
      as [[H _] _].
    intros Hr. apply H in Hr as (_ & _ & He). discriminate He.
Defined.

Lemma wait_disabled_passes_through_witness :
  let req := mkRequest "GET" "/" None in
  let at_ns n := mkClock (10, n) (10, n) (10, n) in
  let busy := {| enabled := true; concurrency := 1; requestRateCapacity := 5;
                 rateCheckInterval := 1 # 2; queueTolerance := 2;
                 requestQueue := WorkQueue.create 1; lastCheck := (10, 0);
                 mostRecentRequestRate := 0; requestsPerCheckInterval := 0;
                 requestsHandled := 0 |} in
  let self := set_enabled false
                (run [Arrive (at_ns 100000000) req 1; Arrive (at_ns 200000000) req 2;
                      Arrive (at_ns 300000000) req 3] busy).1 in
  let self' := (wait (at_ns 600000000) req 4 self).1.1 in
  let fx := (wait (at_ns 600000000) req 4 self).2 in
  enabled self = false /\
  requestQueue self' = requestQueue self /\
  List.filter is_call_next fx = [CallNext 4 None] /\
  In (ProbeRequestThrottled 3 (mostRecentRequestRate self') "/" "GET") fx.
Proof.
  intros req at_ns busy self self' fx.
  destruct (wait_disabled_passes_through (at_ns 600000000) req 4%nat self eq_refl)
    as (H1 & H2 & _ & H4 & _).
  split; [reflexivity|]. split; [exact H1|]. split; [exact H2|].
  apply H4; vm_compute; [reflexivity|discriminate].
Defined.

Lemma wait_reject_frame_witness :
  let req := mkRequest "GET" "/" None in
  let at_ns n := mkClock (10, n) (10, n) (10, n) in
  let new := {| enabled := true; concurrency := 1; requestRateCapacity := 5;
                rateCheckInterval := 1 # 2; queueTolerance := 2;
                requestQueue := WorkQueue.create 1; lastCheck := (10, 0);
                mostRecentRequestRate := 0; requestsPerCheckInterval := 0;
                requestsHandled := 0 |} in
  let self := (run [Arrive (at_ns 100000000) req 1; Arrive (at_ns 200000000) req 2;
                    Arrive (at_ns 300000000) req 3] new).1 in
  let self' := (wait (at_ns 600000000) req 4 self).1.1 in
  let req' := (wait (at_ns 600000000) req 4 self).1.2 in
  enabled self = true /\
  rejects 4 (wait (at_ns 600000000) req 4 self).2 /\
  requestQueue self' = requestQueue self /\
  req' = req /\
  requestsPerCheckInterval self' = 0 /\
  computeRequestLatency (11, 0) (Some req') self' = None.
Proof.
  intros req at_ns new self self' req'.
  assert (Hrej : rejects 4 (wait (at_ns 600000000) req 4 self).2).
  { vm_compute. do 3 right. left. reflexivity. }
  destruct (wait_reject_frame (at_ns 600000000) req 4%nat self eq_refl Hrej)
    as (_ & _ & H3 & H4 & H5 & H6).
  split; [reflexivity|]. split; [exact Hrej|]. split; [exact H4|]. split; [exact H5|].
  split; [apply H3; vm_compute; reflexivity|]. apply H6. reflexivity.
Defined.

End ThrottleRunProps.

(** ** The checked stream *)
Module CheckStreamProps.
Import CheckStream.
Local Open Scope js_scope.

(** *** Running computations *)

Lemma bind_pure {A B} (m : M A) (k : A -> M B) w a w1 :
  m w = Some (a, w1, []) -> bind m k w = k a w1.
Proof. unfold bind. intros ->. destruct (k a w1) as [[[b w2] fx2]|]; reflexivity. Qed.

Lemma bind_some {A B} (m : M A) (k : A -> M B) w a w1 fx1 :
  m w = Some (a, w1, fx1) ->
  bind m k w = match k a w1 with
               | Some (b, w2, fx2) => Some (b, w2, fx1 ++ fx2)
               | None => None
               end.
Proof. unfold bind. intros ->. reflexivity. Qed.

Lemma bind_inv {A B} (m : M A) (k : A -> M B) w b w2 fx :
  bind m k w = Some (b, w2, fx) ->
  exists a w1 fx1 fx2,
    m w = Some (a, w1, fx1) /\ k a w1 = Some (b, w2, fx2) /\ fx = fx1 ++ fx2.
Proof.
  unfold bind. destruct (m w) as [[[a w1] fx1]|]; [|discriminate].
  destruct (k a w1) as [[[b' w2'] fx2]|] eqn:E; [|discriminate].
  intros H. inversion H; subst. eauto 10.
Qed.

Ltac pure_step := erewrite bind_pure by reflexivity.

Lemma set_immediates_nil r : set_immediates (immediates r ++ []) r = r.
Proof. destruct r. unfold set_immediates. simpl. rewrite app_nil_r. reflexivity. Qed.

(** *** Events *)

Lemma for_each_call event arg ls w :
  for_each (call event arg) ls w
  = Some (tt,
          mkWorld (this w) (set_immediates (immediates (node w) ++ immediates_of ls) (node w)),
          calls_of event arg ls).
Proof.
  revert w. induction ls as [|l ls IH]; intros w; simpl.
  - rewrite set_immediates_nil. destruct w; reflexivity.
  - destruct l as [|h once]; simpl.
    + erewrite bind_some by reflexivity. rewrite IH. simpl.
      rewrite <- app_assoc. reflexivity.
    + erewrite bind_some by reflexivity. rewrite IH. reflexivity.
Qed.

Lemma emit_eq event arg w :
  emit event arg w
  = let ls := listeners event (this w) in
    Some (tt,
          mkWorld (set_events (<[event := List.filter (fun l => negb (is_once l)) ls]>
                                 (_events (this w))) (this w))
                  (set_immediates (immediates (node w) ++ immediates_of ls) (node w)),
          Emit event arg :: calls_of event arg ls).
Proof.
  unfold emit. pure_step. erewrite bind_some by reflexivity. pure_step.
  rewrite for_each_call. reflexivity.
Qed.

Lemma calls_of_no_emit event arg ls ev :
  List.filter (is_emit ev) (calls_of event arg ls) = [].
Proof.
  induction ls as [|[|h once] ls IH]; simpl; auto.
Qed.

Lemma calls_of_no_callback event arg ls cb err :
  ~ In (Callback cb err) (calls_of event arg ls).
Proof.
  induction ls as [|[|h once] ls IH]; simpl; auto.
  intros [H|H]; [discriminate|auto].
Qed.

(** *** One chunk *)

Lemma hash_update_eq chunk w :
  hash_digests (hash (this w)) = O ->
  hash_update chunk w
  = Some (tt,
          mkWorld (set_hash (mkHash (hash_algorithm (hash (this w)))
                                    (hash_data (hash (this w)) ++ chunk) O) (this w))
                  (node w),
          []).
Proof. intros Hh. unfold hash_update. pure_step. rewrite Hh. reflexivity. Qed.

Lemma counter_add_eq n w :
  counter_add n w
  = Some (tt,
          mkWorld (this w)
                  (set_collector
                     (<[counter (this w) :=
                          default 0 (collector (node w) !! counter (this w)) + n]>
                        (collector (node w))) (node w)),
          []).
Proof. unfold counter_add. pure_step. reflexivity. Qed.

Lemma setTimeout_eq w :
  setTimeout w
  = Some (timer_seq (node w),
          mkWorld (this w)
                  {| timers := {[ timer_seq (node w) ]} ∪ timers (node w);
                     timer_seq := S (timer_seq (node w));
                     immediates := immediates (node w);
                     collector := collector (node w) |},
          []).
Proof. unfold setTimeout. pure_step. pure_step. reflexivity. Qed.

(** A chunk delivered to an abandoned stream: the callback completes
    without an error and nothing else happens. *)
Lemma _write_dead chunk cb w :
  _dead (this w) = true -> _write chunk cb w = Some (tt, w, [Callback cb None]).
Proof.
  intros Hd. unfold _write. pure_step. simpl. rewrite Hd. reflexivity.
Qed.

(** A chunk that keeps a running stream within [maxBytes]. *)
Lemma _write_within chunk cb w :
  running w ->
  bytes (this w) + Z.of_nat (List.length chunk) <= maxBytes (this w) ->
  exists w',
    _write chunk cb w = Some (tt, w', [Callback cb None]) /\
    running w' /\
    bytes (this w') = bytes (this w) + Z.of_nat (List.length chunk) /\
    maxBytes (this w') = maxBytes (this w) /\
    hash_data (hash (this w')) = hash_data (hash (this w)) ++ chunk /\
    immediates (node w') = immediates (node w) /\
    _events (this w') = _events (this w) /\
    counter (this w') = counter (this w) /\
    collector (node w') !! counter (this w)
    = Some (default 0 (collector (node w) !! counter (this w))
            + Z.of_nat (List.length chunk)) /\
    timers (node w') = {[ timer (this w') ]} ∪ (timers (node w) ∖ {[ timer (this w) ]}).
Proof.
  intros [Hd Hh] Hle. unfold _write. pure_step. simpl. rewrite Hd.
  pure_step. pure_step. erewrite bind_pure by (apply hash_update_eq; exact Hh).
  pure_step. erewrite bind_pure by apply counter_add_eq. pure_step. pure_step.
  simpl. destruct (Z.ltb_spec (maxBytes (this w))
                     (bytes (this w) + Z.of_nat (List.length chunk))) as [Hlt|_]; [lia|].
  erewrite bind_pure by apply setTimeout_eq. pure_step.
  eexists. split; [reflexivity|]. simpl. unfold running. simpl.
  repeat split; try assumption.
  apply lookup_insert_eq.
Qed.

(** A chunk that takes a running stream above [maxBytes]. *)
Lemma _write_above chunk cb w :
  running w ->
  maxBytes (this w) < bytes (this w) + Z.of_nat (List.length chunk) ->
  exists w',
    let n := bytes (this w) + Z.of_nat (List.length chunk) in
    let ls := listeners "length_exceeded" (this w) in
    _write chunk cb w
    = Some (tt, w', Emit "length_exceeded" (Some n) :: calls_of "length_exceeded" (Some n) ls) /\
    running w' /\
    bytes (this w') = n /\
    maxBytes (this w') = maxBytes (this w) /\
    hash_data (hash (this w')) = hash_data (hash (this w)) ++ chunk /\
    immediates (node w')
    = (immediates (node w) ++ immediates_of ls) ++ [ExceededImmediate cb] /\
    counter (this w') = counter (this w) /\
    collector (node w') !! counter (this w)
    = Some (default 0 (collector (node w) !! counter (this w))
            + Z.of_nat (List.length chunk)) /\
    timers (node w') = timers (node w) ∖ {[ timer (this w) ]} /\
    timer (this w') = timer (this w).
Proof.
  intros [Hd Hh] Hlt. unfold _write. pure_step. simpl. rewrite Hd.
  pure_step. pure_step. erewrite bind_pure by (apply hash_update_eq; exact Hh).
  pure_step. erewrite bind_pure by apply counter_add_eq. pure_step. pure_step.
  simpl. destruct (Z.ltb_spec (maxBytes (this w))
                     (bytes (this w) + Z.of_nat (List.length chunk))) as [_|Hle]; [|lia].
  erewrite bind_some by apply emit_eq. simpl.
  eexists. split; [rewrite app_nil_r; reflexivity|]. simpl. unfold running. simpl.
  repeat split; try assumption.
  apply lookup_insert_eq.
Qed.

(** *** A sequence of chunks *)

Lemma total_length_nonneg chunks : 0 <= total_length chunks.
Proof. induction chunks; simpl; lia. Qed.

Lemma total_length_app a b : total_length (a ++ b) = total_length a + total_length b.
Proof. induction a; simpl; lia. Qed.

(** Chunks that keep a running stream within [maxBytes]: every callback
    completes without an error and that is all that happens. *)
Lemma write_all_within chunks cb w :
  running w ->
  bytes (this w) + total_length chunks <= maxBytes (this w) ->
  exists w',
    write_all chunks cb w
    = Some (tt, w', map (fun k => Callback k None) (seq cb (List.length chunks))) /\
    running w' /\
    bytes (this w') = bytes (this w) + total_length chunks /\
    maxBytes (this w') = maxBytes (this w) /\
    hash_data (hash (this w')) = hash_data (hash (this w)) ++ concat chunks /\
    immediates (node w') = immediates (node w) /\
    _events (this w') = _events (this w).
Proof.
  revert cb w. induction chunks as [|c chunks IH]; intros cb w Hrun Hle; simpl in *.
  - exists w. rewrite app_nil_r. repeat split; try apply Hrun; lia.
  - pose proof (total_length_nonneg chunks) as Hnn.
    destruct (_write_within c cb w Hrun) as (w1 & Hw & Hrun1 & Hb & Hm & Hh & Hi & He & _);
      [lia|].
    destruct (IH (S cb) w1 Hrun1) as (w2 & Hw2 & Hrun2 & Hb2 & Hm2 & Hh2 & Hi2 & He2);
      [lia|].
    exists w2. erewrite bind_some by exact Hw. rewrite Hw2. simpl.
    repeat split; try apply Hrun2; try congruence; try lia.
    rewrite Hh2, Hh, <- app_assoc. reflexivity.
Qed.

Lemma emitted_app ev fx1 fx2 : emitted ev (fx1 ++ fx2) = (emitted ev fx1 + emitted ev fx2)%nat.
Proof. unfold emitted. rewrite List.filter_app, length_app. reflexivity. Qed.

Lemma emitted_callbacks ev (ks : list nat) :
  emitted ev (map (fun k => Callback k None) ks) = O.
Proof. induction ks; simpl; auto. Qed.

Lemma emitted_calls ev event arg ls : emitted ev (calls_of event arg ls) = O.
Proof. unfold emitted. rewrite calls_of_no_emit. reflexivity. Qed.

Lemma runImmediate_exceeded hash_fn cb w :
  runImmediate hash_fn (ExceededImmediate cb) w
  = Some (tt, w, [Callback cb (if _dead (this w) then None
                                else Some (MaxSizeExceededError (maxBytes (this w))))]).
Proof. unfold runImmediate. pure_step. pure_step. reflexivity. Qed.

Lemma abandon_eq w :
  abandon w
  = Some (tt,
          mkWorld (set_events
                     (delete "timeout"%string
                        (delete "length_exceeded"%string
                           (delete "finish"%string
                              (delete "error"%string (_events (this w))))))
                     (set_dead true (this w)))
                  (set_timers (timers (node w) ∖ {[ timer (this w) ]}) (node w)),
          []).
Proof. reflexivity. Qed.

Lemma write_all_snoc chunks c cb w w1 fx1 :
  write_all chunks cb w = Some (tt, w1, fx1) ->
  write_all (chunks ++ [c]) cb w
  = match _write c (cb + List.length chunks) w1 with
    | Some (_, w2, fx2) => Some (tt, w2, fx1 ++ fx2)
    | None => None
    end.
Proof.
  revert cb w fx1. induction chunks as [|c0 chunks IH]; intros cb w fx1 H; simpl in *.
  - inversion H; subst. rewrite Nat.add_0_r. unfold bind.
    destruct (_write c cb w1) as [[[[] w2] fx2]|]; simpl; [|reflexivity].
    rewrite app_nil_r. reflexivity.
  - apply bind_inv in H as ([] & wa & fxa & fxb & Ha & Hb & ->).
    erewrite bind_some by exact Ha. rewrite (IH _ _ _ Hb).
    replace (cb + S (List.length chunks))%nat with (S cb + List.length chunks)%nat by lia.
    destruct (_write c _ w1) as [[[[] w2] fx2]|]; [|reflexivity].
    rewrite app_assoc. reflexivity.
Qed.

(** C5.  Chunks are delivered to a running stream (not abandoned, digest
    not taken).  The test is [bytes > maxBytes], made after each chunk on
    the bytes seen so far.  As long as these stay at or below [maxBytes]
    (exactly [maxBytes] included), [length_exceeded] is not emitted and
    every callback completes without an error.  The chunk that takes them
    above [maxBytes] (to [maxBytes + 1], say, or far above it in one large
    chunk) emits [length_exceeded] once, with the bytes seen, and hands its
    callback to [setImmediate]; run then, the callback completes with
    [MaxSizeExceededError(maxBytes)], or without an error when the stream
    was abandoned in between. *)
Theorem length_exceeded_strict hash_fn chunks c cb w :
  running w ->
  bytes (this w) + total_length chunks <= maxBytes (this w) ->
  (exists w',
      write_all chunks cb w
      = Some (tt, w', map (fun k => Callback k None) (seq cb (List.length chunks))) /\
      emitted "length_exceeded"
              (map (fun k => Callback k None) (seq cb (List.length chunks))) = O) /\
  (maxBytes (this w) < bytes (this w) + total_length (chunks ++ [c]) ->
   exists w' fx pre,
     let n := bytes (this w) + total_length (chunks ++ [c]) in
     let k := (cb + List.length chunks)%nat in
     write_all (chunks ++ [c]) cb w = Some (tt, w', fx) /\
     emitted "length_exceeded" fx = 1%nat /\
     In (Emit "length_exceeded" (Some n)) fx /\
     (forall k' err, In (Callback k' err) fx -> err = None) /\
     immediates (node w') = pre ++ [ExceededImmediate k] /\
     runImmediate hash_fn (ExceededImmediate k) w'
     = Some (tt, w', [Callback k (Some (MaxSizeExceededError (maxBytes (this w))))]) /\
     (exists w'',
         abandon w' = Some (tt, w'', []) /\
         runImmediate hash_fn (ExceededImmediate k) w''
         = Some (tt, w'', [Callback k None]))).
Proof.
  intros Hrun Hle.
  destruct (write_all_within chunks cb w Hrun Hle)
    as (w1 & Hw1 & Hrun1 & Hb1 & Hm1 & _ & Hi1 & He1).
  split.
  - exists w1. split; [exact Hw1|]. apply emitted_callbacks.
  - intros Hgt. rewrite total_length_app in Hgt. simpl in Hgt.
    destruct (_write_above c (cb + List.length chunks) w1 Hrun1)
      as (w2 & Hw2 & Hrun2 & Hb2 & Hm2 & _ & Hi2 & _); [lia|].
    simpl in Hw2.
    eexists w2, _, _. cbv zeta.
    rewrite (write_all_snoc _ _ _ _ _ _ Hw1), Hw2.
    split; [reflexivity|].
    assert (Hn : bytes (this w1) + Z.of_nat (List.length c)
                 = bytes (this w) + total_length (chunks ++ [c])).
    { rewrite total_length_app. simpl. lia. }
    rewrite Hn. split; [|split; [|split; [|split; [|split]]]].
    + rewrite emitted_app, emitted_callbacks. unfold emitted. simpl.
      rewrite calls_of_no_emit. reflexivity.
    + apply in_app_iff. right. left. reflexivity.
    + intros k' err H. apply in_app_iff in H as [H|H].
      * apply in_map_iff in H as (k0 & H0 & _). congruence.
      * destruct H as [H|H]; [discriminate|]. apply calls_of_no_callback in H. contradiction.
    + exact Hi2.
    + rewrite runImmediate_exceeded. destruct Hrun2 as [-> _]. rewrite Hm2, Hm1. reflexivity.
    + eexists. split; [apply abandon_eq|]. rewrite runImmediate_exceeded. reflexivity.
Qed.

(** *** Relations kept by computations *)

Section Keeps.
Variable R : World -> World -> Prop.
Hypothesis R_refl : forall w, R w w.
Hypothesis R_trans : forall a b c, R a b -> R b c -> R a c.

Lemma keeps_ret {A} (a : A) : keeps R (ret a).
Proof using R_refl. intros w a' w' fx H. inversion H; subst. apply R_refl. Qed.

Lemma keeps_throw {A} : keeps R (@throw A).
Proof. intros w a w' fx H. discriminate. Qed.

Lemma keeps_get {A} (f : CheckStream -> A) : keeps R (get f).
Proof using R_refl. intros w a w' fx H. inversion H; subst. apply R_refl. Qed.

Lemma keeps_get_node {A} (f : Runtime -> A) : keeps R (get_node f).
Proof using R_refl. intros w a w' fx H. inversion H; subst. apply R_refl. Qed.

Lemma keeps_tell fx : keeps R (tell fx).
Proof using R_refl. intros w a w' fx' H. inversion H; subst. apply R_refl. Qed.

Lemma keeps_update f :
  (forall w, R w (mkWorld (f (this w)) (node w))) -> keeps R (update f).
Proof. intros Hf w a w' fx H. inversion H; subst. apply Hf. Qed.

Lemma keeps_update_node f :
  (forall w, R w (mkWorld (this w) (f (node w)))) -> keeps R (update_node f).
Proof. intros Hf w a w' fx H. inversion H; subst. apply Hf. Qed.

Lemma keeps_bind {A B} (m : M A) (k : A -> M B) :
  keeps R m -> (forall a, keeps R (k a)) -> keeps R (bind m k).
Proof using R_trans.
  intros Hm Hk w b w2 fx H.
  apply bind_inv in H as (a & w1 & fx1 & fx2 & H1 & H2 & _).
  eapply R_trans; [eapply Hm; eassumption|eapply Hk; eassumption].
Qed.

Lemma keeps_for_each {A} (f : A -> M unit) l :
  (forall a, keeps R (f a)) -> keeps R (for_each f l).
Proof using R_refl R_trans.
  intros Hf. induction l as [|a l IH]; simpl.
  - apply keeps_ret.
  - apply keeps_bind; auto.
Qed.
End Keeps.

(** Breaks a computation into its primitives; what is left are the
    updates of fields. *)
Ltac keeps_tac_with known Hrefl Htrans :=
  repeat first
    [ known
    | apply (keeps_bind _ Htrans); [|intros ?]
    | apply (keeps_ret _ Hrefl)
    | apply keeps_throw
    | apply (keeps_get _ Hrefl)
    | apply (keeps_get_node _ Hrefl)
    | apply (keeps_tell _ Hrefl)
    | apply (keeps_for_each _ Hrefl Htrans); intros ?
    | apply keeps_update; intros ?
    | apply keeps_update_node; intros ?
    | match goal with
      | |- keeps _ (match ?x with _ => _ end) => destruct x
      | |- keeps _ (if ?x then _ else _) => destruct x
      end ].

Ltac keeps_tac Hrefl Htrans := keeps_tac_with fail Hrefl Htrans.

Lemma stays_dead_refl w : stays_dead w w.
Proof. intros H. exact H. Qed.

Lemma stays_dead_trans a b c : stays_dead a b -> stays_dead b c -> stays_dead a c.
Proof. unfold stays_dead. auto. Qed.

Lemma same_digest_refl w : same_digest w w.
Proof. split; reflexivity. Qed.

Lemma same_digest_trans a b c : same_digest a b -> same_digest b c -> same_digest a c.
Proof. unfold same_digest. intros [] []. split; congruence. Qed.

Lemma step_stays_dead hash_fn buffer_toString st :
  keeps stays_dead (step hash_fn buffer_toString st).
Proof.
  destruct st; simpl;
    unfold _write, abandon, digest, ensure_digest, hash_digest, hash_update, counter_add,
      emit, call, onTimeoutHandler, runImmediate, addListener, removeAllListeners,
      clearTimeout, setTimeout, setImmediate, emit, call, ensure_digest, hash_digest;
    keeps_tac stays_dead_refl stays_dead_trans;
    unfold stays_dead; simpl; auto.
Qed.

Lemma run_stays_dead hash_fn buffer_toString steps :
  keeps stays_dead (run hash_fn buffer_toString steps).
Proof.
  unfold run. apply (keeps_for_each _ stays_dead_refl stays_dead_trans).
  apply step_stays_dead.
Qed.

(** C6, amended to what the code does.  Abandoning is the one state the
    stream itself keeps: once [abandon] has returned, whatever happens
    afterwards, a chunk delivered to the stream leaves the stream and the
    runtime exactly as they are (the hash is not updated, [bytes] does not
    change, the counter is not touched) and the only effect is the chunk's
    callback completing without an error, so no signal fires. *)
Theorem chunk_after_abandon_noop hash_fn buffer_toString w w1 fx1 steps w2 fx2 chunk cb :
  abandon w = Some (tt, w1, fx1) ->
  run hash_fn buffer_toString steps w1 = Some (tt, w2, fx2) ->
  step hash_fn buffer_toString (Chunk chunk cb) w2 = Some (tt, w2, [Callback cb None]) /\
  List.filter is_signal [Callback cb None] = [].
Proof.
  intros Ha Hr. split; [|reflexivity]. simpl. apply _write_dead.
  apply (run_stays_dead _ _ _ _ _ _ _ Hr).
  rewrite abandon_eq in Ha. inversion Ha; subst. reflexivity.
Qed.

(** *** The digest *)

(** The hash is updated only while it is not finalized. *)
Lemma hash_update_same_digest chunk : keeps same_digest (hash_update chunk).
Proof.
  intros w [] w' fx H. unfold hash_update in H.
  apply bind_inv in H as (h & w1 & fx1 & fx2 & H1 & H2 & _).
  unfold get in H1. injection H1 as Hh Hw Hf. subst h w1 fx1.
  destruct (hash_digests (hash (this w))) eqn:E; [|discriminate].
  unfold update in H2. injection H2 as Hw' _. subst w'. split; simpl; congruence.
Qed.

Lemma step_same_digest hash_fn buffer_toString st :
  match st with
  | Tick | Digest _ => True
  | _ => keeps same_digest (step hash_fn buffer_toString st)
  end.
Proof.
  destruct st; try exact I; unfold step;
    unfold _write, abandon, counter_add,
      emit, call, onTimeoutHandler, addListener, removeAllListeners,
      clearTimeout, setTimeout, setImmediate, emit, call;
    keeps_tac_with ltac:(apply hash_update_same_digest)
                   same_digest_refl same_digest_trans;
    unfold same_digest; simpl; auto.
Qed.

Lemma ensure_digest_set hash_fn b w :
  _digest (this w) = Some b -> ensure_digest hash_fn w = Some (b, w, []).
Proof. intros H. unfold ensure_digest. pure_step. rewrite H. reflexivity. Qed.

Lemma hash_digest_eq hash_fn w :
  hash_digests (hash (this w)) = O ->
  hash_digest hash_fn w
  = Some (hash_fn (hash_algorithm (hash (this w))) (hash_data (hash (this w))),
          mkWorld (set_hash (mkHash (hash_algorithm (hash (this w)))
                                    (hash_data (hash (this w))) 1) (this w))
                  (node w),
          []).
Proof. intros Hh. unfold hash_digest. pure_step. rewrite Hh. reflexivity. Qed.

Lemma ensure_digest_unset hash_fn w :
  _digest (this w) = None -> hash_digests (hash (this w)) = O ->
  let b := hash_fn (hash_algorithm (hash (this w))) (hash_data (hash (this w))) in
  ensure_digest hash_fn w
  = Some (b,
          mkWorld (set_digest (Some b)
                     (set_hash (mkHash (hash_algorithm (hash (this w)))
                                       (hash_data (hash (this w))) 1) (this w)))
                  (node w),
          []).
Proof.
  intros Hd Hh. unfold ensure_digest. pure_step. rewrite Hd.
  erewrite bind_pure by (apply hash_digest_eq; exact Hh). reflexivity.
Qed.

(** [ensure_digest] on a stream whose digest and hash agree: it returns, the
    digest is set to what it returns, and the hash has been finalized once. *)
Lemma ensure_digest_once hash_fn w :
  digest_once w ->
  exists b w',
    ensure_digest hash_fn w = Some (b, w', []) /\
    _digest (this w') = Some b /\
    hash_digests (hash (this w')) = 1%nat /\
    node w' = node w /\
    (forall b0, _digest (this w) = Some b0 -> w' = w).
Proof.
  unfold digest_once. intros H. destruct (_digest (this w)) as [b|] eqn:Hd.
  - exists b, w. rewrite (ensure_digest_set _ b) by assumption. auto.
  - eexists _, _. rewrite ensure_digest_unset by assumption.
    split; [reflexivity|]. simpl. repeat split. intros b0 Hb0. discriminate.
Qed.

Lemma digest_once_same w w' : same_digest w w' -> digest_once w -> digest_once w'.
Proof. unfold same_digest, digest_once. intros [-> ->]. auto. Qed.

Lemma emit_same_digest event arg : keeps same_digest (emit event arg).
Proof.
  unfold emit, call, setImmediate.
  keeps_tac same_digest_refl same_digest_trans; unfold same_digest; simpl; auto.
Qed.

Lemma step_digest_once hash_fn buffer_toString st w w' fx :
  step hash_fn buffer_toString st w = Some (tt, w', fx) ->
  digest_once w -> digest_once w'.
Proof.
  intros Hs Hinv.
  pose proof (step_same_digest hash_fn buffer_toString st) as Hk.
  destruct st; try (eapply digest_once_same; [eapply Hk; exact Hs|exact Hinv]); clear Hk.
  - (* the event loop runs a function of [setImmediate] *)
    simpl in Hs. apply bind_inv in Hs as (q & w1 & fx1 & fx2 & H1 & H2 & _).
    unfold get_node in H1. injection H1 as Hq Hw _. subst q w1.
    destruct (immediates (node w)) as [|i q]; [inversion H2; subst; exact Hinv|].
    apply bind_inv in H2 as ([] & w1 & fx3 & fx4 & H1 & H2 & _).
    unfold update_node in H1. injection H1 as Hw _. subst w1.
    destruct i as [|k]; simpl in H2.
    + apply bind_inv in H2 as (b & w1 & fx5 & fx6 & H1 & H2 & _).
      destruct (ensure_digest_once hash_fn
                  (mkWorld (this w) (set_immediates q (node w))) Hinv)
        as (b' & w1' & He & Hd & Hh & _).
      rewrite He in H1. injection H1 as _ Hw _. subst w1'.
      eapply digest_once_same; [eapply emit_same_digest; exact H2|].
      unfold digest_once. rewrite Hd. exact Hh.
    + apply bind_inv in H2 as (d & w1 & fx5 & fx6 & H1 & H2 & _).
      unfold get in H1. injection H1 as _ Hw _. subst w1.
      apply bind_inv in H2 as (m & w1 & fx7 & fx8 & H1 & H2 & _).
      unfold get in H1. injection H1 as _ Hw _. subst w1.
      unfold tell in H2. injection H2 as Hw _. subst w'. exact Hinv.
  - (* [digest] *)
    simpl in Hs. apply bind_inv in Hs as (d & w1 & fx1 & fx2 & H1 & H2 & _).
    unfold ret in H2. injection H2 as Hw _. subst w1.
    unfold digest in H1.
    apply bind_inv in H1 as (h & w1 & fx3 & fx4 & H1 & H2 & _).
    unfold get in H1. injection H1 as _ Hw _. subst w1.
    apply bind_inv in H2 as ([] & w1 & fx5 & fx6 & H1 & H2 & _).
    unfold clearTimeout, update_node in H1. injection H1 as Hw _. subst w1.
    apply bind_inv in H2 as (b & w1 & fx7 & fx8 & H1 & H2 & _).
    match type of H1 with ensure_digest _ ?w0 = _ =>
      destruct (ensure_digest_once hash_fn w0 Hinv) as (b' & w1' & He & Hd & Hh & _)
    end.
    rewrite He in H1. injection H1 as _ Hw _. subst w1'.
    assert (w' = w1) as ->.
    { destruct encoding as [e|]; [destruct (String.eqb e "")|];
        unfold ret in H2; injection H2 as _ Hw _; congruence. }
    unfold digest_once. rewrite Hd. exact Hh.
Qed.

Lemma run_digest_once hash_fn buffer_toString steps w w' fx :
  run hash_fn buffer_toString steps w = Some (tt, w', fx) ->
  digest_once w -> digest_once w'.
Proof.
  revert w fx. induction steps as [|st steps IH]; intros w fx H Hinv; simpl in H.
  - inversion H; subst. exact Hinv.
  - apply bind_inv in H as ([] & w1 & fx1 & fx2 & H1 & H2 & _).
    eapply IH; [exact H2|]. eapply step_digest_once; eassumption.
Qed.

Lemma digest_eq hash_fn buffer_toString encoding w b w1 :
  ensure_digest hash_fn
    (mkWorld (this w) (set_timers (timers (node w) ∖ {[ timer (this w) ]}) (node w)))
  = Some (b, w1, []) ->
  digest hash_fn buffer_toString encoding w
  = Some (match encoding with
          | Some e => if String.eqb e "" then AsBuffer b
                      else AsString (buffer_toString b e)
          | None => AsBuffer b
          end, w1, []).
Proof.
  intros H. unfold digest. pure_step. pure_step. erewrite bind_pure by exact H.
  destruct encoding as [e|]; [destruct (String.eqb e "")|]; reflexivity.
Qed.

(** C9.  In every state a stream can reach from its construction (a
    completed stream in particular), [digest] called twice with the same
    encoding returns the same value both times, and the hash has then been
    finalized exactly once: it was finalized at most once before the first
    call (by [onFinish]), once after it, and the second call finalizes
    nothing and leaves the stream as it is. *)
Theorem digest_idempotent hash_fn buffer_toString opts now c steps w fx encoding :
  run hash_fn buffer_toString steps (new opts now c) = Some (tt, w, fx) ->
  exists d w1 w2,
    digest hash_fn buffer_toString encoding w = Some (d, w1, []) /\
    digest hash_fn buffer_toString encoding w1 = Some (d, w2, []) /\
    (hash_digests (hash (this w)) <= 1)%nat /\
    hash_digests (hash (this w1)) = 1%nat /\
    hash_digests (hash (this w2)) = 1%nat /\
    this w2 = this w1.
Proof.
  intros Hrun.
  assert (Hinv : digest_once w).
  { eapply run_digest_once; [exact Hrun|]. reflexivity. }
  set (wa := mkWorld (this w)
               (set_timers (timers (node w) ∖ {[ timer (this w) ]}) (node w))).
  destruct (ensure_digest_once hash_fn wa Hinv) as (b & w1 & He & Hd & Hh & Hn & _).
  set (wb := mkWorld (this w1)
               (set_timers (timers (node w1) ∖ {[ timer (this w1) ]}) (node w1))).
  pose proof (ensure_digest_set hash_fn b wb Hd) as He2.
  eexists _, w1, wb.
  rewrite (digest_eq _ _ _ _ _ _ He), (digest_eq _ _ _ _ _ _ He2).
  repeat split; try assumption.
  unfold digest_once in Hinv. destruct (_digest (this w)); lia.
Qed.

(** *** The code on concrete streams *)

Lemma length_exceeded_strict_witness :
  let w := new (mkOptions None 3 1000 true) 0 ∅ in
  let chunks := [[Byte.x61; Byte.x62]; [Byte.x63]] in
  running w /\
  bytes (this w) + total_length chunks = maxBytes (this w) /\
  (exists w',
      write_all chunks 0 w = Some (tt, w', [Callback 0 None; Callback 1 None])) /\
  (exists w' fx pre,
      write_all (chunks ++ [[Byte.x64]]) 0 w = Some (tt, w', fx) /\
      emitted "length_exceeded" fx = 1%nat /\
      In (Emit "length_exceeded" (Some 4)) fx /\
      immediates (node w') = pre ++ [ExceededImmediate 2] /\
      runImmediate (fun _ d => d) (ExceededImmediate 2) w'
      = Some (tt, w', [Callback 2 (Some (MaxSizeExceededError 3))])).
Proof.
  intros w chunks.
  assert (Hrun : running w) by (split; reflexivity).
  assert (Hle : bytes (this w) + total_length chunks <= maxBytes (this w))
    by (vm_compute; discriminate).
  destruct (length_exceeded_strict (fun _ d => d) chunks [Byte.x64] 0 w Hrun Hle)
    as [(w1 & H1 & _) H2].
  split; [exact Hrun|]. split; [reflexivity|]. split; [exists w1; exact H1|].
  destruct H2 as (w2 & fx & pre & Hw & He & Hin & _ & Hi & Hr & _);
    [vm_compute; reflexivity|].
  exists w2, fx, pre. auto.
Defined.

Lemma chunk_after_abandon_noop_witness :
  let w := new (mkOptions None 3 1000 true) 0 ∅ in
  exists w1 w2 fx2,
    abandon w = Some (tt, w1, []) /\
    run (fun _ d => d) (fun _ e => e) [Finish; Tick; TimerFires 0] w1 = Some (tt, w2, fx2) /\
    step (fun _ d => d) (fun _ e => e) (Chunk [Byte.x61] 0) w2
    = Some (tt, w2, [Callback 0 None]).
Proof.
  intros w.
  destruct (abandon w) as [[[[] w1] fx1]|] eqn:Ha; [|discriminate].
  assert (Hfx : fx1 = []) by (rewrite abandon_eq in Ha; congruence). subst fx1.
  assert (Hr : exists w2 fx2,
             run (fun _ d => d) (fun _ e => e) [Finish; Tick; TimerFires 0] w1
             = Some (tt, w2, fx2)).
  { rewrite abandon_eq in Ha. injection Ha as <-. eexists _, _. vm_compute. reflexivity. }
  destruct Hr as (w2 & fx2 & Hr).
  destruct (chunk_after_abandon_noop (fun _ d => d) (fun _ e => e) w w1 []
              [Finish; Tick; TimerFires 0] w2 fx2 [Byte.x61] 0 Ha Hr) as [H _].
  exists w1, w2, fx2. auto.
Defined.

(** C6, where the claim fails.  A stream with [maxBytes = 3] and a handler
    for [length_exceeded] gets a chunk of 4 bytes: [length_exceeded] is
    emitted and the callback completes with [MaxSizeExceededError], the
    stream is finished with an error.  It is not abandoned, and the next
    chunk of 1 byte is processed like any other: the hash takes it in,
    [bytes] goes from 4 to 5, the counter is advanced, and
    [length_exceeded] is emitted and delivered again. *)
Lemma chunk_after_length_exceeded_is_processed :
  let w := new (mkOptions None 3 1000 true) 0 ∅ in
  let c4 := [Byte.x61; Byte.x62; Byte.x63; Byte.x64] in
  exists w1 w2,
    run (fun _ d => d) (fun _ e => e)
        [Listen "length_exceeded" 7 false; Chunk c4 0; Tick] w
    = Some (tt, w1, [Emit "length_exceeded" (Some 4); Call 7 "length_exceeded" (Some 4);
                     Callback 0 (Some (MaxSizeExceededError 3))]) /\
    step (fun _ d => d) (fun _ e => e) (Chunk [Byte.x65] 1) w1
    = Some (tt, w2, [Emit "length_exceeded" (Some 5); Call 7 "length_exceeded" (Some 5)]) /\
    bytes (this w1) = 4 /\ bytes (this w2) = 5 /\
    hash_data (hash (this w1)) = c4 /\
    hash_data (hash (this w2)) = c4 ++ [Byte.x65] /\
    collector (node w1) !! "muskie_sent_bytes"%string = Some 4 /\
    collector (node w2) !! "muskie_sent_bytes"%string = Some 5.
Proof.
  eexists _, _. split; [vm_compute; reflexivity|]. split; [vm_compute; reflexivity|].
  repeat split.
Qed.

(** C7, on the code.  Whatever [opts.inbound] is, the constructor takes the
    counter [muskie_sent_bytes]: its test reads [this.inbound], which is
    never assigned.  So a stream made with [inbound = true] adds the length
    of its chunks to the sent-bytes counter and leaves the received-bytes
    counter alone. *)
Theorem inbound_counts_as_sent :
  (forall opts now c, counter (this (new opts now c)) = "muskie_sent_bytes"%string) /\
  let w := new (mkOptions None 100 1000 true) 0 ∅ in
  exists w',
    _write [Byte.x61; Byte.x62; Byte.x63; Byte.x64; Byte.x65] 0 w
    = Some (tt, w', [Callback 0 None]) /\
    collector (node w') !! "muskie_sent_bytes"%string = Some 5 /\
    collector (node w') !! "muskie_received_bytes"%string = None.
Proof.
  split; [reflexivity|]. eexists. split; [vm_compute; reflexivity|].
  split; reflexivity.
Qed.

(** C8, on the code.  A stream has a handler for [done].  It gets a chunk,
    then [finish] is emitted and [onFinish] hands its function to
    [setImmediate].  Before the event loop runs that function the stream is
    abandoned: it is marked dead, its timer is cleared, its listeners for
    [error], [finish], [length_exceeded] and [timeout] are gone.  The
    function still runs, takes the digest and emits [done], and the handler
    for [done], which [abandon] does not detach, is called. *)
Theorem done_fires_after_abandon :
  let w := new (mkOptions None 100 1000 true) 0 ∅ in
  exists w1 w2,
    run (fun _ d => d) (fun _ e => e)
        [Listen "done" 1 false; Chunk [Byte.x61] 0; Finish; Abandon] w
    = Some (tt, w1, [Callback 0 None; Emit "finish" None]) /\
    _dead (this w1) = true /\
    timers (node w1) = ∅ /\
    immediates (node w1) = [FinishImmediate] /\
    step (fun _ d => d) (fun _ e => e) Tick w1
    = Some (tt, w2, [Emit "done" None; Call 1 "done" None]) /\
    List.filter is_signal [Emit "done" None; Call 1 "done" None] = [Call 1 "done" None].
Proof.
  eexists _, _. split; [vm_compute; reflexivity|].
  split; [reflexivity|]. split; [vm_compute; reflexivity|].
  split; [reflexivity|]. split; [vm_compute; reflexivity|]. reflexivity.
Qed.

Lemma digest_idempotent_witness :
  let w0 := new (mkOptions None 100 1000 true) 0 ∅ in
  let steps := [Chunk [Byte.x61; Byte.x62] 0; Finish; Tick] in
  exists w fx d w1 w2,
    run (fun _ d => rev d) (fun _ e => e) steps w0 = Some (tt, w, fx) /\
    digest (fun _ d => rev d) (fun _ e => e) (Some "hex"%string) w = Some (d, w1, []) /\
    digest (fun _ d => rev d) (fun _ e => e) (Some "hex"%string) w1 = Some (d, w2, []) /\
    hash_digests (hash (this w2)) = 1%nat.
Proof.
  intros w0 steps.
  assert (Hrun : exists w fx,
             run (fun _ d => rev d) (fun _ e => e) steps w0 = Some (tt, w, fx))
    by (eexists _, _; vm_compute; reflexivity).
  destruct Hrun as (w & fx & Hrun).
  destruct (digest_idempotent (fun _ d => rev d) (fun _ e => e)
              (mkOptions None 100 1000 true) 0 ∅ steps w fx (Some "hex"%string) Hrun)
    as (d & w1 & w2 & H1 & H2 & _ & _ & H3 & _).
  exists w, fx, d, w1, w2. auto.
Defined.

End CheckStreamProps.

(** ** The checked stream after [abandon] *)
Module AbandonProps.
Import CheckStream CheckStreamProps.
Local Open Scope js_scope.

(** *** Timers *)

Lemma no_new_timer_refl w : no_new_timer w w.
Proof. split; reflexivity. Qed.

Lemma no_new_timer_trans a b c : no_new_timer a b -> no_new_timer b c -> no_new_timer a c.
Proof.
  unfold no_new_timer. intros [H1 H2] [H3 H4].
  split; [etransitivity; eassumption|congruence].
Qed.

Lemma own_timer_no_new w w' : no_new_timer w w' -> own_timer w -> own_timer w'.
Proof.
  unfold no_new_timer, own_timer. intros [H1 ->] H. etransitivity; eassumption.
Qed.

(** Every step but the delivery of a chunk arms no timer. *)
Lemma step_no_new_timer hash_fn buffer_toString st :
  match st with
  | Chunk _ _ => True
  | _ => keeps no_new_timer (step hash_fn buffer_toString st)
  end.
Proof.
  destruct st; try exact I; unfold step;
    unfold abandon, digest, ensure_digest, hash_digest,
      emit, call, onTimeoutHandler, runImmediate, addListener, removeAllListeners,
      clearTimeout, setImmediate, emit, call, ensure_digest, hash_digest;
    keeps_tac no_new_timer_refl no_new_timer_trans;
    unfold no_new_timer; simpl; split; try reflexivity;
    apply subseteq_difference_l; reflexivity.
Qed.

Lemma _write_own_timer chunk cb w w' fx :
  _write chunk cb w = Some (tt, w', fx) -> own_timer w -> own_timer w'.
Proof.
  intros H Hown. destruct (_dead (this w)) eqn:Hd.
  - rewrite _write_dead in H by assumption. injection H as <- _. exact Hown.
  - destruct (hash_digests (hash (this w))) as [|n] eqn:Hh.
    + assert (Hrun : running w) by (split; assumption).
      destruct (Z.le_gt_cases (bytes (this w) + Z.of_nat (List.length chunk))
                              (maxBytes (this w))) as [Hle|Hgt].
      * destruct (_write_within chunk cb w Hrun Hle)
          as (w1 & Hw & _ & _ & _ & _ & _ & _ & _ & _ & Ht).
        rewrite Hw in H. injection H as <- _.
        unfold own_timer in *. rewrite Ht.
        intros x [Hx|[Hx Hn]%elem_of_difference]%elem_of_union; [exact Hx|].
        exfalso. apply Hn, Hown, Hx.
      * destruct (_write_above chunk cb w Hrun Hgt)
          as (w1 & Hw & _ & _ & _ & _ & _ & _ & _ & Ht & Ht').
        simpl in Hw. rewrite Hw in H. injection H as <- _.
        unfold own_timer in *. rewrite Ht, Ht'.
        intros x [Hx _]%elem_of_difference. apply Hown, Hx.
    + exfalso. unfold _write in H. erewrite bind_pure in H by reflexivity. rewrite Hd in H.
      erewrite bind_pure in H by reflexivity. erewrite bind_pure in H by reflexivity.
      apply bind_inv in H as ([] & w1 & fx1 & fx2 & H1 & _).
      unfold hash_update in H1. erewrite bind_pure in H1 by reflexivity.
      simpl in H1. rewrite Hh in H1. discriminate.
Qed.

Lemma step_own_timer hash_fn buffer_toString st w w' fx :
  step hash_fn buffer_toString st w = Some (tt, w', fx) -> own_timer w -> own_timer w'.
Proof.
  intros H Hown. pose proof (step_no_new_timer hash_fn buffer_toString st) as Hk.
  destruct st; try (eapply own_timer_no_new; [eapply Hk; exact H|exact Hown]).
  eapply _write_own_timer; eassumption.
Qed.

(** *** Listeners *)

Lemma listeners_insert event ls ev (s : CheckStream) :
  listeners ev (set_events (<[event := ls]> (_events s)) s)
  = if decide (event = ev) then ls else listeners ev s.
Proof.
  unfold listeners. simpl. rewrite lookup_insert. destruct (decide (event = ev)); reflexivity.
Qed.

Lemma listeners_delete event ev (s : CheckStream) :
  listeners ev (set_events (delete event (_events s)) s)
  = if decide (event = ev) then [] else listeners ev s.
Proof.
  unfold listeners. simpl. rewrite lookup_delete. destruct (decide (event = ev)); reflexivity.
Qed.

Lemma on_finish_only_new opts now c : on_finish_only (new opts now c).
Proof.
  intros event. unfold new, listeners. simpl.
  destruct (decide (event = "finish"%string)) as [->|Hne]; [reflexivity|].
  rewrite lookup_singleton_ne by congruence. simpl. contradiction.
Qed.

Lemma own_timer_new opts now c : own_timer (new opts now c).
Proof. unfold own_timer, new. simpl. reflexivity. Qed.

Lemma emit_on_finish_only event arg :
  keeps (fun w w' => on_finish_only w -> on_finish_only w') (emit event arg).
Proof.
  intros w [] w' fx H Hofo. rewrite emit_eq in H. injection H as <- _.
  intros ev Hin. simpl in Hin. rewrite listeners_insert in Hin.
  destruct (decide (event = ev)) as [<-|Hne]; [|apply Hofo, Hin].
  apply List.filter_In in Hin as [Hin _]. apply Hofo, Hin.
Qed.

Lemma addListener_on_finish_only event h once :
  keeps (fun w w' => on_finish_only w -> on_finish_only w')
        (addListener event (Handler h once)).
Proof.
  intros w [] w' fx H Hofo. unfold addListener, update in H. injection H as <- _.
  intros ev Hin. simpl in Hin. rewrite listeners_insert in Hin.
  destruct (decide (event = ev)) as [<-|Hne]; [|apply Hofo, Hin].
  apply in_app_iff in Hin as [Hin|[Hin|[]]]; [apply Hofo, Hin|discriminate].
Qed.

Lemma removeAllListeners_on_finish_only event :
  keeps (fun w w' => on_finish_only w -> on_finish_only w') (removeAllListeners event).
Proof.
  intros w [] w' fx H Hofo. unfold removeAllListeners, update in H. injection H as <- _.
  intros ev Hin. simpl in Hin. rewrite listeners_delete in Hin.
  destruct (decide (event = ev)) as [<-|Hne]; [contradiction|apply Hofo, Hin].
Qed.

Lemma step_on_finish_only hash_fn buffer_toString st :
  keeps (fun w w' => on_finish_only w -> on_finish_only w') (step hash_fn buffer_toString st).
Proof.
  assert (Hrefl : forall w, on_finish_only w -> on_finish_only w) by auto.
  assert (Htrans : forall a b c : World,
             (on_finish_only a -> on_finish_only b) ->
             (on_finish_only b -> on_finish_only c) ->
             on_finish_only a -> on_finish_only c) by auto.
  destruct st; unfold step;
    unfold _write, abandon, digest, ensure_digest, hash_digest, hash_update, counter_add,
      onTimeoutHandler, runImmediate, clearTimeout, setTimeout, setImmediate,
      ensure_digest, hash_digest;
    keeps_tac_with
      ltac:(first [ apply emit_on_finish_only
                  | apply addListener_on_finish_only
                  | apply removeAllListeners_on_finish_only ])
      Hrefl Htrans;
    auto.
Qed.

(** What a stream is like in every state it can reach from its
    construction. *)
Lemma run_reachable hash_fn buffer_toString steps w w' fx :
  run hash_fn buffer_toString steps w = Some (tt, w', fx) ->
  own_timer w /\ on_finish_only w -> own_timer w' /\ on_finish_only w'.
Proof.
  revert w fx. induction steps as [|st steps IH]; intros w fx H Hinv; simpl in H.
  - injection H as <- _. exact Hinv.
  - apply bind_inv in H as ([] & w1 & fx1 & fx2 & H1 & H2 & _).
    eapply IH; [exact H2|]. destruct Hinv as [Ho Hf]. split.
    + eapply step_own_timer; eassumption.
    + eapply step_on_finish_only; eassumption.
Qed.

(** *** After [abandon] *)

(** X16.  [abandon] never throws and has no effect on the outside; called
    again, it changes nothing. *)
Lemma abandon_idempotent w :
  exists w1, abandon w = Some (tt, w1, []) /\ abandon w1 = Some (tt, w1, []).
Proof.
  eexists. split; [apply abandon_eq|]. rewrite abandon_eq.
  destruct w as [s r]. unfold set_events, set_dead, set_timers. simpl.
  assert (He : forall E : gmap string (list Listener),
             delete "timeout"%string
               (delete "length_exceeded"%string
                  (delete "finish"%string
                     (delete "error"%string
                        (delete "timeout"%string
                           (delete "length_exceeded"%string
                              (delete "finish"%string (delete "error"%string E)))))))
             = delete "timeout"%string
                 (delete "length_exceeded"%string
                    (delete "finish"%string (delete "error"%string E)))).
  { intros E. apply map_eq. intros k. rewrite !lookup_delete.
    repeat (destruct (decide (_ = k)); [reflexivity|]). reflexivity. }
  assert (Ht : forall (X : gset nat) h, X ∖ {[ h ]} ∖ {[ h ]} = X ∖ {[ h ]}).
  { intros X h. apply set_eq. intros x. rewrite !elem_of_difference. tauto. }
  rewrite He, Ht. reflexivity.
Qed.

Lemma abandon_silenced w w1 fx :
  own_timer w -> on_finish_only w -> ~ In FinishImmediate (immediates (node w)) ->
  abandon w = Some (tt, w1, fx) ->
  silenced w1.
Proof.
  intros Hown Hofo Himm H. rewrite abandon_eq in H. injection H as <- _.
  split; [reflexivity|]. split; [|split; [|exact Himm]].
  - simpl. apply set_eq. intros x. rewrite elem_of_difference. split; [|intros []%elem_of_empty].
    intros [Hx Hn]. exfalso. apply Hn, Hown, Hx.
  - intros ev Hin. unfold listeners in Hin. simpl in Hin. rewrite !lookup_delete in Hin.
    repeat (destruct (decide (_ = ev)); [contradiction|]).
    apply Hofo in Hin. congruence.
Qed.

Lemma immediates_of_handlers ls : ~ In OnFinish ls -> immediates_of ls = [].
Proof.
  induction ls as [|[|h once] ls IH]; simpl; intros H; [reflexivity| |apply IH; tauto].
  exfalso. apply H. left. reflexivity.
Qed.

Lemma calls_of_quiet event arg ls :
  lifecycle event = false ->
  forallb (fun e => negb (is_lifecycle_signal e)) (calls_of event arg ls) = true.
Proof.
  intros He. induction ls as [|[|h once] ls IH]; simpl; [reflexivity|exact IH|].
  rewrite He. exact IH.
Qed.

Lemma ensure_digest_quiet hash_fn w b w' fx :
  ensure_digest hash_fn w = Some (b, w', fx) ->
  fx = [] /\ node w' = node w /\ _dead (this w') = _dead (this w) /\
  _events (this w') = _events (this w).
Proof.
  intros H. destruct (_digest (this w)) as [b0|] eqn:Hd.
  - rewrite (ensure_digest_set _ b0) in H by assumption. injection H as _ <- <-. auto.
  - destruct (hash_digests (hash (this w))) as [|n] eqn:Hh.
    + rewrite ensure_digest_unset in H by assumption. injection H as _ <- <-. auto.
    + exfalso. unfold ensure_digest in H. erewrite bind_pure in H by reflexivity.
      rewrite Hd in H. apply bind_inv in H as (b1 & w1 & fx1 & fx2 & H1 & _).
      unfold hash_digest in H1. erewrite bind_pure in H1 by reflexivity.
      rewrite Hh in H1. discriminate.
Qed.

(** Whatever happens to a silenced stream, it stays silenced and no
    lifecycle signal is among the effects. *)
Lemma step_silenced hash_fn buffer_toString st w w' fx :
  silenced w ->
  step hash_fn buffer_toString st w = Some (tt, w', fx) ->
  silenced w' /\ forallb (fun e => negb (is_lifecycle_signal e)) fx = true.
Proof.
  intros (Hd & Ht & Hl & Hi) H. destruct st; simpl in H.
  - (* a chunk *)
    rewrite _write_dead in H by assumption. injection H as <- <-.
    split; [repeat split; assumption|reflexivity].
  - (* [finish] is emitted *)
    rewrite emit_eq in H. injection H as <- <-. simpl.
    rewrite (immediates_of_handlers _ (Hl _)), calls_of_quiet by reflexivity.
    split; [|reflexivity]. repeat split; simpl; try assumption.
    + intros ev Hin. rewrite listeners_insert in Hin.
      destruct (decide ("finish"%string = ev)); [|exact (Hl _ Hin)].
      apply List.filter_In in Hin as [Hin _]. exact (Hl _ Hin).
    + rewrite app_nil_r. exact Hi.
  - (* a timer fires: none is armed *)
    erewrite bind_pure in H by reflexivity. rewrite Ht in H.
    destruct (decide (h ∈ (∅ : gset nat))) as [Hin|_];
      [apply elem_of_empty in Hin; contradiction|].
    injection H as <- <-. split; [repeat split; assumption|reflexivity].
  - (* the event loop runs a function of [setImmediate] *)
    erewrite bind_pure in H by reflexivity.
    destruct (immediates (node w)) as [|i q] eqn:Hq.
    + injection H as <- <-. split; [|reflexivity]. repeat split; try assumption.
      rewrite Hq. exact Hi.
    + erewrite bind_pure in H by reflexivity.
      destruct i as [|cb]; [exfalso; apply Hi; left; reflexivity|].
      rewrite runImmediate_exceeded in H. simpl in H. rewrite Hd in H.
      injection H as <- <-. split; [|reflexivity]. repeat split; simpl; try assumption.
      intros Hin. apply Hi. right. exact Hin.
  - (* a handler is attached *)
    unfold addListener, update in H. injection H as <- <-. split; [|reflexivity].
    repeat split; simpl; try assumption.
    intros ev Hin. rewrite listeners_insert in Hin.
    destruct (decide (event = ev)) as [<-|]; [|exact (Hl _ Hin)].
    apply in_app_iff in Hin as [Hin|[Hin|[]]]; [exact (Hl _ Hin)|discriminate].
  - (* [digest] *)
    apply bind_inv in H as (d & w1 & fx1 & fx2 & H1 & H2 & ->).
    injection H2 as <- <-. unfold digest in H1.
    erewrite bind_pure in H1 by reflexivity. erewrite bind_pure in H1 by reflexivity.
    apply bind_inv in H1 as (b & w2 & fx3 & fx4 & H1 & H2 & ->).
    apply ensure_digest_quiet in H1 as (-> & Hn & Hd' & He').
    assert (w1 = w2 /\ fx4 = []) as [-> ->].
    { destruct encoding as [e|]; [destruct (String.eqb e "")|];
        injection H2 as _ <- <-; auto. }
    split; [|reflexivity]. unfold silenced, listeners. rewrite Hn, Hd', He'. simpl.
    repeat split; try assumption.
    rewrite Ht. apply set_eq. intros x. rewrite elem_of_difference.
    split; [intros [[]%elem_of_empty _]|intros []%elem_of_empty].
  - (* [abandon] again *)
    rewrite abandon_eq in H. injection H as <- <-. split; [|reflexivity].
    repeat split; simpl; try assumption.
    + rewrite Ht. apply set_eq. intros x. rewrite elem_of_difference.
      split; [intros [[]%elem_of_empty _]|intros []%elem_of_empty].
    + intros ev Hin. unfold listeners in Hin. simpl in Hin. rewrite !lookup_delete in Hin.
      repeat (destruct (decide (_ = ev)); [contradiction|]). exact (Hl _ Hin).
Qed.

Lemma run_silenced hash_fn buffer_toString steps w w' fx :
  silenced w ->
  run hash_fn buffer_toString steps w = Some (tt, w', fx) ->
  silenced w' /\ forallb (fun e => negb (is_lifecycle_signal e)) fx = true.
Proof.
  revert w fx. induction steps as [|st steps IH]; intros w fx Hs H; simpl in H.
  - injection H as <- <-. auto.
  - apply bind_inv in H as ([] & w1 & fx1 & fx2 & H1 & H2 & ->).
    destruct (step_silenced _ _ _ _ _ _ Hs H1) as [Hs1 Hq1].
    destruct (IH _ _ Hs1 H2) as [Hs2 Hq2].
    split; [exact Hs2|]. rewrite forallb_app, Hq1, Hq2. reflexivity.
Qed.

(** X17.  The part of C8 the code keeps.  A stream is abandoned in a state
    it can reach from its construction, while the function of [onFinish] is not
    waiting in the queue of [setImmediate].  Then [abandon] returns without
    an effect, no timer is armed any more, and whatever happens afterwards
    (chunks, [finish], timers, the event loop, new handlers, [digest],
    [abandon] again) no [done], [timeout], [length_exceeded] or [error] is
    emitted or delivered and no callback completes with an error. *)
Lemma abandon_silences hash_fn buffer_toString opts now c before w after w1 w2 fx0 fx1 fx2 :
  run hash_fn buffer_toString before (new opts now c) = Some (tt, w, fx0) ->
  ~ In FinishImmediate (immediates (node w)) ->
  abandon w = Some (tt, w1, fx1) ->
  run hash_fn buffer_toString after w1 = Some (tt, w2, fx2) ->
  fx1 = [] /\
  timers (node w1) = ∅ /\
  timers (node w2) = ∅ /\
  forallb (fun e => negb (is_lifecycle_signal e)) fx2 = true.
Proof.
  intros Hb Hi Ha Hr.
  destruct (run_reachable _ _ _ _ _ _ Hb) as [Hown Hofo];
    [split; [apply own_timer_new|apply on_finish_only_new]|].
  pose proof (abandon_silenced _ _ _ Hown Hofo Hi Ha) as Hs.
  destruct (run_silenced _ _ _ _ _ _ Hs Hr) as [Hs2 Hq].
  split; [rewrite abandon_eq in Ha; congruence|].
  split; [apply Hs|]. split; [apply Hs2|exact Hq].
Qed.
End AbandonProps.

(** ** More on the throttle *)
Module ThrottleMoreProps.
Import HrTime Throttle ThrottleProps.

(** *** The tunables *)

Lemma handle_frame ev self :
  let self' := (handle ev self).1 in
  enabled self' = enabled self /\
  concurrency self' = concurrency self /\
  requestRateCapacity self' = requestRateCapacity self /\
  rateCheckInterval self' = rateCheckInterval self /\
  queueTolerance self' = queueTolerance self /\
  WorkQueue.concurrency (requestQueue self') = WorkQueue.concurrency (requestQueue self).
Proof.
  destruct (ThrottleRunProps.handle_queue ev self) as [ops Hq].
  assert (Hqc : WorkQueue.concurrency (requestQueue (handle ev self).1)
                = WorkQueue.concurrency (requestQueue self))
    by (rewrite Hq; apply WorkQueueProps.run_concurrency).
  destruct ev as [clk req next|i]; simpl in *.
  - pose proof (wait_rate_frame clk self) as (He & Hc & Hr & Hi & Ht & _).
    destruct (wait clk req next self) as [[self' req'] fx] eqn:Hw. simpl in *.
    assert (Hs : self' = (wait clk req next self).1.1) by (rewrite Hw; reflexivity).
    destruct (enabled self) eqn:Hen.
    + destruct (over_capacity (wait_rate clk self).1) eqn:Hov.
      * rewrite wait_reject in Hs by assumption. subst self'. simpl in *. auto 10.
      * rewrite wait_enqueue in Hs by assumption. subst self'. simpl in *. auto 10.
    + rewrite wait_passive in Hs by assumption. subst self'. simpl in *. auto 10.
  - unfold runWorker in *. destruct (WorkQueue.find_pending i (requestQueue self));
      simpl in *; auto 10.
Qed.

Lemma run_frame evs self :
  let self' := (run evs self).1 in
  enabled self' = enabled self /\
  concurrency self' = concurrency self /\
  requestRateCapacity self' = requestRateCapacity self /\
  rateCheckInterval self' = rateCheckInterval self /\
  queueTolerance self' = queueTolerance self /\
  WorkQueue.concurrency (requestQueue self') = WorkQueue.concurrency (requestQueue self).
Proof.
  revert self. induction evs as [|ev evs IH]; intros self; simpl; [auto 10|].
  pose proof (handle_frame ev self) as Hh. destruct (handle ev self) as [self1 fx1].
  specialize (IH self1). destruct (run evs self1) as [self2 fx2]. simpl in *.
  destruct Hh as (? & ? & ? & ? & ? & ?), IH as (? & ? & ? & ? & ? & ?).
  repeat split; congruence.
Qed.

Lemma Qlt_bool_false_iff (x y : Q) : Qlt_bool x y = false <-> (y <= x)%Q.
Proof.
  unfold Qlt_bool. rewrite negb_false_iff. apply Qle_bool_iff.
Qed.

(** X1.  [createThrottle] throws exactly when one of the four tunables is
    not positive.  A throttle it returns has the tunables of the options,
    all positive, and a queue of the same concurrency, and keeps them through
    every arrival and every run of a worker: [wait] changes no setting. *)
Theorem tunables_validated_and_kept opts now :
  (createThrottle opts now = None <->
     opt_concurrency opts <= 0 \/ (opt_requestRateCapacity opts <= 0)%Q \/
     (opt_rateCheckInterval opts <= 0)%Q \/ opt_queueTolerance opts <= 0) /\
  (forall th evs,
      createThrottle opts now = Some th ->
      let th' := (run evs th).1 in
      enabled th' = opt_enabled opts /\
      concurrency th' = opt_concurrency opts /\ 0 < concurrency th' /\
      requestRateCapacity th' = opt_requestRateCapacity opts /\
      (0 < requestRateCapacity th')%Q /\
      rateCheckInterval th' = opt_rateCheckInterval opts /\
      (0 < rateCheckInterval th')%Q /\
      queueTolerance th' = opt_queueTolerance opts /\ 0 < queueTolerance th' /\
      WorkQueue.concurrency (requestQueue th') = opt_concurrency opts).
Proof.
  assert (Hb : (0 <? opt_concurrency opts)
               && Qlt_bool 0 (opt_requestRateCapacity opts)
               && Qlt_bool 0 (opt_rateCheckInterval opts)
               && (0 <? opt_queueTolerance opts) = true <->
               0 < opt_concurrency opts /\ (0 < opt_requestRateCapacity opts)%Q /\
               (0 < opt_rateCheckInterval opts)%Q /\ 0 < opt_queueTolerance opts).
  { rewrite !andb_true_iff, !Z.ltb_lt, !Qlt_bool_iff. tauto. }
  unfold createThrottle. destruct (_ && _).
  - destruct (proj1 Hb eq_refl) as (Hc & Hr & Hi & Ht). split.
    + split; [discriminate|]. intros [H|[H|[H|H]]]; exfalso; try lia.
      * exact (Qlt_not_le _ _ Hr H).
      * exact (Qlt_not_le _ _ Hi H).
    + intros th evs H. injection H as <-.
      pose proof (run_frame evs
                    {| enabled := opt_enabled opts; concurrency := opt_concurrency opts;
                       requestRateCapacity := opt_requestRateCapacity opts;
                       rateCheckInterval := opt_rateCheckInterval opts;
                       queueTolerance := opt_queueTolerance opts;
                       requestQueue := WorkQueue.create (opt_concurrency opts);
                       lastCheck := now; mostRecentRequestRate := 0;
                       requestsPerCheckInterval := 0; requestsHandled := 0 |})
        as (H1 & H2 & H3 & H4 & H5 & H6).
      simpl in *. rewrite H1, H2, H3, H4, H5, H6. auto 12.
  - split; [|intros th evs H; discriminate H]. split; [intros _|reflexivity].
    destruct (Z.le_gt_cases (opt_concurrency opts) 0) as [|Hc]; [auto|].
    destruct (Qlt_le_dec 0 (opt_requestRateCapacity opts)) as [Hr|]; [|auto].
    destruct (Qlt_le_dec 0 (opt_rateCheckInterval opts)) as [Hi|]; [|auto].
    destruct (Z.le_gt_cases (opt_queueTolerance opts) 0) as [|Ht]; [auto|].
    exfalso. assert (false = true); [|discriminate].
    apply Hb. repeat split; try assumption; lia.
Qed.


(** *** Between two computations of the rate *)

Lemma tunables_validated_and_kept_witness :
  let req := mkRequest "GET" "/" None in
  let clk n := mkClock (10, n) (10, n) (10, n) in
  let evs := [Arrive (clk 100) req 1; Arrive (clk 300000000) req 2; RunWorker 0] in
  createThrottle (mkOptions true 0 5 1 3) (10, 0) = None /\
  exists th,
    createThrottle (mkOptions true 2 5 (1 # 4) 3) (10, 0) = Some th /\
    concurrency (run evs th).1 = 2 /\
    (rateCheckInterval (run evs th).1 = 1 # 4)%Q /\
    queueTolerance (run evs th).1 = 3.
Proof.
  intros req clk evs.
  split.
  - apply (proj1 (tunables_validated_and_kept (mkOptions true 0 5 1 3) (10, 0))).
    left. simpl. lia.
  - eexists. split; [reflexivity|].
    match goal with |- context [run evs ?t] => set (th := t) end.
    destruct (proj2 (tunables_validated_and_kept (mkOptions true 2 5 (1 # 4) 3) (10, 0))
                th evs eq_refl) as (_ & H2 & _ & _ & _ & H6 & _ & H8 & _).
    rewrite H2, H6, H8. repeat split.
Defined.

Lemma filter_reject_wait_rate clk self :
  List.filter is_reject (wait_rate clk self).2 = [].
Proof. apply wait_rate_filter. reflexivity. Qed.

(** One arrival that does not find the rate due. *)
Lemma wait_not_due clk req next self :
  check_due clk self = false ->
  let self' := (wait clk req next self).1.1 in
  let fx := (wait clk req next self).2 in
  requestsPerCheckInterval self' = requestsPerCheckInterval self + 1 /\
  mostRecentRequestRate self' = mostRecentRequestRate self /\
  lastCheck self' = lastCheck self /\
  (forall r, ~ In (ProbeRequestRateChecked r) fx) /\
  ((mostRecentRequestRate self <= requestRateCapacity self)%Q ->
   List.filter is_reject fx = []).
Proof.
  intros Hdue self' fx. subst self' fx.
  pose proof (wait_rate_not_due clk self Hdue) as Hr.
  assert (Hov : (mostRecentRequestRate self <= requestRateCapacity self)%Q ->
                over_capacity (wait_rate clk self).1 = false).
  { intros Hle. rewrite Hr. unfold over_capacity. simpl.
    apply Qlt_bool_false_iff in Hle. rewrite Hle. reflexivity. }
  destruct (enabled self) eqn:Hen.
  - destruct (over_capacity (wait_rate clk self).1) eqn:Hover.
    + rewrite wait_reject by assumption. rewrite Hr. simpl.
      repeat split; try reflexivity.
      * intros r Hin. intuition discriminate.
      * intros Hle. apply Hov in Hle. discriminate.
    + rewrite wait_enqueue by assumption. rewrite Hr. simpl.
      repeat split; try reflexivity.
      intros r Hin. intuition discriminate.
  - rewrite wait_passive by assumption. rewrite Hr. simpl.
    destruct (over_capacity (set_requestsPerCheckInterval _ self));
      simpl; repeat split; try reflexivity;
      first [intros _; reflexivity | intros r Hin; intuition discriminate].
Qed.

Lemma runWorker_rate i self :
  let self' := (runWorker i self).1 in
  let fx := (runWorker i self).2 in
  requestsPerCheckInterval self' = requestsPerCheckInterval self /\
  mostRecentRequestRate self' = mostRecentRequestRate self /\
  lastCheck self' = lastCheck self /\
  (forall r, ~ In (ProbeRequestRateChecked r) fx) /\
  List.filter is_reject fx = [].
Proof.
  unfold runWorker. destruct (WorkQueue.find_pending i (requestQueue self)); simpl.
  - repeat split. intros r [H|[]]. discriminate.
  - repeat split. intros r [].
Qed.

Lemma run_not_due evs self :
  none_due (rateCheckInterval self) (lastCheck self) evs ->
  let self' := (run evs self).1 in
  let fx := (run evs self).2 in
  requestsPerCheckInterval self' = requestsPerCheckInterval self + arrivals evs /\
  mostRecentRequestRate self' = mostRecentRequestRate self /\
  lastCheck self' = lastCheck self /\
  (forall r, ~ In (ProbeRequestRateChecked r) fx) /\
  ((mostRecentRequestRate self <= requestRateCapacity self)%Q ->
   List.filter is_reject fx = []).
Proof.
  revert self. induction evs as [|ev evs IH]; intros self Hnd; simpl.
  - repeat split; try lia; auto.
  - apply Forall_cons in Hnd as [Hev Hnd].
    pose proof (handle_frame ev self) as (_ & _ & Hcap & Hint & _).
    assert (Hh : requestsPerCheckInterval (handle ev self).1
                 = requestsPerCheckInterval self
                   + match ev with Arrive _ _ _ => 1 | RunWorker _ => 0 end /\
                 mostRecentRequestRate (handle ev self).1 = mostRecentRequestRate self /\
                 lastCheck (handle ev self).1 = lastCheck self /\
                 (forall r, ~ In (ProbeRequestRateChecked r) (handle ev self).2) /\
                 ((mostRecentRequestRate self <= requestRateCapacity self)%Q ->
                  List.filter is_reject (handle ev self).2 = [])).
    { destruct ev as [clk req next|i]; simpl.
      - pose proof (wait_not_due clk req next self Hev) as H.
        destruct (wait clk req next self) as [[s1 r1] f1]. exact H.
      - pose proof (runWorker_rate i self) as (H1 & H2 & H3 & H4 & H5).
        split; [lia|]. split; [exact H2|]. split; [exact H3|]. split; [exact H4|].
        intros _. exact H5. }
    destruct (handle ev self) as [self1 fx1]. simpl in *.
    destruct Hh as (Hc1 & Hr1 & Hl1 & Hp1 & Hj1).
    specialize (IH self1). rewrite Hint, Hl1 in IH. specialize (IH Hnd).
    destruct (run evs self1) as [self2 fx2]. simpl in *.
    destruct IH as (Hc2 & Hr2 & Hl2 & Hp2 & Hj2).
    repeat split.
    + rewrite Hc2, Hc1. destruct ev; lia.
    + congruence.
    + congruence.
    + intros r Hin. apply in_app_iff in Hin as [Hin|Hin]; [exact (Hp1 r Hin)|exact (Hp2 r Hin)].
    + intros Hle. rewrite List.filter_app, Hj1 by exact Hle.
      rewrite Hj2; [reflexivity|]. rewrite Hr1, Hcap. exact Hle.
Qed.

(** X2.  As long as no arrival finds the rate due, the throttle counts:
    after any history of arrivals and runs of workers
    [requestsPerCheckInterval] has grown by the number of arrivals, the
    cached rate and [lastCheck] are what they were, and the
    [request_rate_checked] probe has not fired. *)
Theorem counter_counts_arrivals evs self :
  none_due (rateCheckInterval self) (lastCheck self) evs ->
  let self' := (run evs self).1 in
  requestsPerCheckInterval self' = requestsPerCheckInterval self + arrivals evs /\
  mostRecentRequestRate self' = mostRecentRequestRate self /\
  lastCheck self' = lastCheck self /\
  (forall r, ~ In (ProbeRequestRateChecked r) (run evs self).2).
Proof.
  intros Hnd. destruct (run_not_due evs self Hnd) as (H1 & H2 & H3 & H4 & _). auto.
Qed.

Lemma counter_counts_arrivals_witness :
  let req := mkRequest "GET" "/" None in
  let at_ns n := mkClock (10, n) (10, n) (10, n) in
  let self := {| enabled := true; concurrency := 2; requestRateCapacity := 5;
                 rateCheckInterval := 1 # 2; queueTolerance := 2;
                 requestQueue := WorkQueue.create 2; lastCheck := (10, 0);
                 mostRecentRequestRate := 0; requestsPerCheckInterval := 0;
                 requestsHandled := 0 |} in
  let evs := [Arrive (at_ns 100000000) req 1; RunWorker 1;
              Arrive (at_ns 200000000) req 2; Arrive (at_ns 300000000) req 3] in
  none_due (rateCheckInterval self) (lastCheck self) evs /\
  requestsPerCheckInterval (run evs self).1 = 3.
Proof.
  intros req at_ns self evs.
  assert (Hnd : none_due (rateCheckInterval self) (lastCheck self) evs)
    by (repeat constructor).
  split; [exact Hnd|]. destruct (counter_counts_arrivals evs self Hnd) as [H _]. exact H.
Defined.

(** *** An interval of a second or more *)

Lemma wf_not_due interval last clk :
  wf last -> wf (now_wait clk) -> (1 <= interval)%Q ->
  Qlt_bool interval (div_1e9 (since (now_wait clk) last).2) = false.
Proof.
  intros Hl Hn Hi. apply Qlt_bool_false_iff.
  pose proof (ThrottleRunProps.since_nsec_range _ _ Hn Hl) as [_ Hr].
  apply ThrottleRunProps.div_1e9_lt_1 in Hr.
  apply Qlt_le_weak. eapply Qlt_le_trans; eassumption.
Qed.

(** X3.  A throttle created with a [rateCheckInterval] of one second or more
    never computes the rate: what [wait] compares with the interval is the
    nanosecond entry of the elapsed time, which is below one second.  Through
    every history the cached rate stays 0, the counter holds the number of all
    arrivals so far, and no request is turned away, whatever the load. *)
Theorem long_interval_never_rejects opts now th evs :
  createThrottle opts now = Some th ->
  wf now -> wf_clocks evs ->
  (1 <= opt_rateCheckInterval opts)%Q ->
  mostRecentRequestRate (run evs th).1 = 0%Q /\
  requestsPerCheckInterval (run evs th).1 = arrivals evs /\
  lastCheck (run evs th).1 = now /\
  List.filter is_reject (run evs th).2 = [].
Proof.
  intros Hc Hnow Hwf Hint. unfold createThrottle in Hc.
  destruct (Qlt_bool 0 (opt_requestRateCapacity opts)) eqn:Hr;
    [|rewrite andb_false_r in Hc; discriminate].
  destruct (_ && _) in Hc; [|discriminate]. injection Hc as <-.
  apply Qlt_bool_iff in Hr.
  match goal with |- context [run evs ?t] => set (th := t) end.
  assert (Hnd : none_due (rateCheckInterval th) (lastCheck th) evs).
  { unfold none_due, wf_clocks in *. eapply Forall_impl; [exact Hwf|].
    intros [clk req next|i]; [|auto]. intros (Hw & _). apply wf_not_due; assumption. }
  destruct (run_not_due evs th Hnd) as (H1 & H2 & H3 & _ & H5).
  repeat split; try assumption.
  apply H5. simpl. apply Qlt_le_weak. exact Hr.
Qed.

Lemma long_interval_never_rejects_witness :
  let req := mkRequest "GET" "/" None in
  let opts := mkOptions true 1 1 5 1 in
  let busy n := mkClock (10 + n, 999999999) (10 + n, 999999999) (10 + n, 999999999) in
  let evs := [Arrive (busy 0) req 1; Arrive (busy 1) req 2; Arrive (busy 2) req 3;
              Arrive (busy 60) req 4; Arrive (busy 61) req 5] in
  exists th,
    createThrottle opts (10, 0) = Some th /\
    mostRecentRequestRate (run evs th).1 = 0%Q /\
    requestsPerCheckInterval (run evs th).1 = 5 /\
    List.filter is_reject (run evs th).2 = [].
Proof.
  intros req opts busy evs. eexists. split; [reflexivity|].
  match goal with |- context [run evs ?t] => set (th := t) end.
  assert (Hwf : wf_clocks evs).
  { repeat constructor; vm_compute; intuition discriminate. }
  destruct (long_interval_never_rejects opts (10, 0) th evs eq_refl) as (H1 & H2 & _ & H4);
    try assumption.
  - vm_compute. intuition discriminate.
  - vm_compute. discriminate.
  - auto.
Defined.


(** *** When the rate is computed *)






(** *** The latency of a request *)

(** X5.  A request that [wait] does not turn away leaves it with
    [throttleStartTime] set to the clock at that moment, its method and url
    as they came; so [computeRequestLatency] on it passes its assertions
    for any throttle, returns the time since then and fires
    [request_handled] with the request's method and url. *)
Theorem let_through_request_has_latency clk req next self now self2 :
  ~ rejects next (wait clk req next self).2 ->
  let req' := (wait clk req next self).1.2 in
  req' = set_throttleStartTime (now_start clk) req /\
  computeRequestLatency now (Some req') self2
  = Some (since now (now_start clk),
          [ProbeRequestHandled (method req) (url req) (since now (now_start clk)).2]).
Proof.
  intros Hnr. cbv zeta.
  assert (Hreq : (wait clk req next self).1.2 = set_throttleStartTime (now_start clk) req).
  { destruct (enabled self) eqn:Hen.
    - destruct (over_capacity (wait_rate clk self).1) eqn:Hov.
      + exfalso. apply Hnr. unfold rejects. rewrite wait_reject by assumption.
        simpl. rewrite !in_app_iff. simpl. auto.
      + rewrite wait_enqueue by assumption. reflexivity.
    - rewrite wait_passive by assumption. reflexivity. }
  rewrite Hreq. split; reflexivity.
Qed.

Lemma let_through_request_has_latency_witness :
  let clk := mkClock (10, 100) (10, 200) (10, 300) in
  let req := mkRequest "PUT" "/a/b" None in
  let self := {| enabled := false; concurrency := 1; requestRateCapacity := 5;
                 rateCheckInterval := 1; queueTolerance := 2;
                 requestQueue := WorkQueue.create 1; lastCheck := (10, 0);
                 mostRecentRequestRate := 0; requestsPerCheckInterval := 0;
                 requestsHandled := 0 |} in
  ~ rejects 1 (wait clk req 1 self).2 /\
  computeRequestLatency (12, 100) (Some (wait clk req 1 self).1.2) self
  = Some ((1, 999999800), [ProbeRequestHandled "PUT" "/a/b" 999999800]).
Proof.
  intros clk req self.
  assert (Hnr : ~ rejects 1 (wait clk req 1 self).2).
  { vm_compute. intuition discriminate. }
  split; [exact Hnr|].
  destruct (let_through_request_has_latency clk req 1%nat self (12, 100) self Hnr)
    as [_ H].
  exact H.
Defined.

Lemma since_to_ns now start :
  to_ns (since now start) = to_ns now - to_ns start.
Proof.
  unfold since, to_ns, NS_PER_SEC. destruct (Z.ltb_spec (now.2 - start.2) 0); simpl; lia.
Qed.

(** X6.  For readings of the clock with the start not after the end,
    [computeRequestLatency] returns the whole elapsed time as an hrtime
    ([seconds * 10^9 + nanoseconds] is the difference of the two readings),
    but the figure it hands to the [request_handled] probe is the nanosecond
    entry alone: the elapsed nanoseconds modulo one second. *)
Theorem latency_whole_but_probe_below_second now start req self :
  wf now -> wf start -> to_ns start <= to_ns now ->
  throttleStartTime req = Some start ->
  exists latency,
    computeRequestLatency now (Some req) self
    = Some (latency,
            [ProbeRequestHandled (method req) (url req)
                                 ((to_ns now - to_ns start) mod NS_PER_SEC)]) /\
    wf latency /\
    to_ns latency = to_ns now - to_ns start.
Proof.
  intros Hn Hs Hle Hreq. exists (since now start).
  pose proof (ThrottleRunProps.since_nsec_range _ _ Hn Hs) as Hr.
  pose proof (since_to_ns now start) as Ht.
  assert (Hmod : (to_ns now - to_ns start) mod NS_PER_SEC = (since now start).2).
  { rewrite <- Ht. unfold to_ns. rewrite Z.add_comm, Z_mod_plus_full.
    apply Z.mod_small. exact Hr. }
  unfold computeRequestLatency. rewrite Hreq, Hmod.
  split; [reflexivity|]. split; [|exact Ht].
  split; [|exact Hr]. unfold to_ns, NS_PER_SEC in *. nia.
Qed.

Lemma latency_whole_but_probe_below_second_witness :
  let req := {| method := "GET"; url := "/x"; throttleStartTime := Some (10, 900000000) |} in
  let self := {| enabled := true; concurrency := 1; requestRateCapacity := 5;
                 rateCheckInterval := 1; queueTolerance := 2;
                 requestQueue := WorkQueue.create 1; lastCheck := (10, 0);
                 mostRecentRequestRate := 0; requestsPerCheckInterval := 0;
                 requestsHandled := 0 |} in
  exists latency,
    computeRequestLatency (14, 100000000) (Some req) self
    = Some (latency, [ProbeRequestHandled "GET" "/x" 200000000]) /\
    to_ns latency = 3200000000.
Proof.
  intros req self.
  assert (Hn : wf (14, 100000000)) by (vm_compute; intuition discriminate).
  assert (Hs : wf (10, 900000000)) by (vm_compute; intuition discriminate).
  assert (Hle : to_ns (10, 900000000) <= to_ns (14, 100000000))
    by (vm_compute; discriminate).
  destruct (latency_whole_but_probe_below_second
              (14, 100000000) (10, 900000000) req self Hn Hs Hle eq_refl)
    as (latency & H1 & _ & H2).
  exists latency. split; [exact H1|exact H2].
Defined.

(** *** The passive throttle *)

(** X7.  A request that [wait] turns away is handed back as it came:
    [throttleStartTime] is not set on it.  Unless it carried one already,
    [computeRequestLatency] on it fails its assertion, for any throttle and
    at any time. *)
Theorem rejected_request_has_no_latency clk req next self now self2 :
  rejects next (wait clk req next self).2 ->
  throttleStartTime req = None ->
  let req' := (wait clk req next self).1.2 in
  req' = req /\ computeRequestLatency now (Some req') self2 = None.
Proof.
  intros Hr Hnone. cbv zeta.
  assert (Hreq : (wait clk req next self).1.2 = req).
  { destruct (enabled self) eqn:Hen.
    - destruct (over_capacity (wait_rate clk self).1) eqn:Hov.
      + rewrite wait_reject by assumption. reflexivity.
      + exfalso. unfold rejects in Hr. rewrite wait_enqueue in Hr by assumption.
        in_effects.
    - exfalso. unfold rejects in Hr. rewrite wait_passive in Hr by assumption.
      in_effects. }
  rewrite Hreq. split; [reflexivity|].
  unfold computeRequestLatency. rewrite Hnone. reflexivity.
Qed.

Lemma rejected_request_has_no_latency_witness :
  let clk := mkClock (10, 100) (10, 200) (10, 300) in
  let req := mkRequest "PUT" "/a/b" None in
  let q := WorkQueue.push (WorkQueue.mkTask 7)
             (WorkQueue.push (WorkQueue.mkTask 6) (WorkQueue.create 1)) in
  let self := {| enabled := true; concurrency := 1; requestRateCapacity := 5;
                 rateCheckInterval := 1; queueTolerance := 1;
                 requestQueue := q; lastCheck := (10, 0);
                 mostRecentRequestRate := 9; requestsPerCheckInterval := 0;
                 requestsHandled := 0 |} in
  rejects 1 (wait clk req 1 self).2 /\
  computeRequestLatency (12, 100) (Some (wait clk req 1 self).1.2) self = None.
Proof.
  intros clk req q self.
  assert (Hr : rejects 1 (wait clk req 1 self).2).
  { vm_compute. auto 10. }
  split; [exact Hr|].
  destruct (rejected_request_has_no_latency clk req 1%nat self (12, 100) self Hr eq_refl)
    as [_ H].
  exact H.
Defined.

Lemma passive_queue_stays_empty_witness :
  let req := mkRequest "GET" "/" None in
  let at_ns n := mkClock (10, n) (10, n) (10, n) in
  let opts := mkOptions false 1 5 (1 # 2) 1 in
  let evs := [Arrive (at_ns 100000000) req 1; Arrive (at_ns 200000000) req 2;
              Arrive (at_ns 600000000) req 3; RunWorker 1] in
  exists th,
    createThrottle opts (10, 0) = Some th /\
    requestQueue (run evs th).1 = WorkQueue.create 1 /\
    List.filter is_throttled_probe (wait (at_ns 700000000) req 4 (run evs th).1).2 = [].
Proof.
  intros req at_ns opts evs. eexists. split; [reflexivity|].
  match goal with |- context [run evs ?t] => set (th := t) end.
  destruct (ThrottleRunProps.passive_queue_stays_empty opts (10, 0) th evs eq_refl eq_refl)
    as (_ & H2 & H3).
  split; [exact H2|apply H3].
Defined.

End ThrottleMoreProps.

(** ** More on the checked stream *)
Module CheckStreamMoreProps.
Import CheckStream CheckStreamProps AbandonProps.
Local Open Scope js_scope.

(** *** What the constructor fixes *)

Lemma same_settings_refl w : same_settings w w.
Proof. repeat split. Qed.

Lemma same_settings_trans a b c : same_settings a b -> same_settings b c -> same_settings a c.
Proof.
  unfold same_settings. intros (?&?&?&?&?) (?&?&?&?&?). repeat split; congruence.
Qed.

Lemma hash_update_settings chunk : keeps same_settings (hash_update chunk).
Proof.
  intros w [] w' fx H. unfold hash_update in H.
  erewrite bind_pure in H by reflexivity.
  destruct (hash_digests (hash (this w))); [|discriminate].
  unfold update in H. injection H as <- _. repeat split.
Qed.

Lemma hash_digest_settings hash_fn : keeps same_settings (hash_digest hash_fn).
Proof.
  intros w b w' fx H. unfold hash_digest in H.
  erewrite bind_pure in H by reflexivity.
  destruct (hash_digests (hash (this w))); [|discriminate].
  erewrite bind_pure in H by reflexivity. injection H as _ <- _. repeat split.
Qed.

Lemma step_same_settings hash_fn buffer_toString st :
  keeps same_settings (step hash_fn buffer_toString st).
Proof.
  destruct st; unfold step;
    unfold _write, abandon, digest, ensure_digest, counter_add,
      emit, call, onTimeoutHandler, runImmediate, addListener, removeAllListeners,
      clearTimeout, setTimeout, setImmediate, emit, call, ensure_digest;
    keeps_tac_with
      ltac:(first [apply hash_update_settings | apply hash_digest_settings])
      same_settings_refl same_settings_trans;
    unfold same_settings; simpl; auto.
Qed.

Lemma run_keeps (R : World -> World -> Prop) hash_fn buffer_toString steps :
  (forall w, R w w) -> (forall a b c, R a b -> R b c -> R a c) ->
  (forall st, keeps R (step hash_fn buffer_toString st)) ->
  keeps R (run hash_fn buffer_toString steps).
Proof.
  intros Hrefl Htrans Hstep. unfold run. apply (keeps_for_each _ Hrefl Htrans). exact Hstep.
Qed.

(** X9.  Whatever happens to a stream, what its constructor chose stays:
    the algorithm of the stream and of its hash is [opts.algorithm], or
    [md5] when that is absent or empty; [maxBytes] and [timeout] are the
    options'; the counter is [muskie_sent_bytes]; and [toString] names the
    algorithm. *)
Theorem settings_fixed hash_fn buffer_toString opts now c steps w fx :
  run hash_fn buffer_toString steps (new opts now c) = Some (tt, w, fx) ->
  algorithm (this w) = algorithm_or_md5 (opt_algorithm opts) /\
  hash_algorithm (hash (this w)) = algorithm_or_md5 (opt_algorithm opts) /\
  maxBytes (this w) = opt_maxBytes opts /\
  timeout (this w) = opt_timeout opts /\
  counter (this w) = "muskie_sent_bytes"%string /\
  toString (this w)
  = ("[object CheckStream<" ++ algorithm_or_md5 (opt_algorithm opts) ++ ">]")%string.
Proof.
  intros H.
  apply (run_keeps same_settings _ _ _ same_settings_refl same_settings_trans
           (step_same_settings _ _)) in H as (H1 & H2 & H3 & H4 & H5).
  unfold toString. rewrite H1, H2, H3, H4, H5. repeat split.
Qed.

Lemma settings_fixed_witness :
  let steps := [Chunk [Byte.x61] 0; Digest None; Abandon; Finish; Tick] in
  exists w fx,
    run (fun _ d => d) (fun _ e => e) steps
        (new (mkOptions (Some "") 10 1000 true) 0 ∅) = Some (tt, w, fx) /\
    toString (this w) = "[object CheckStream<md5>]"%string /\
    counter (this w) = "muskie_sent_bytes"%string.
Proof.
  intros steps.
  assert (Hrun : exists w fx,
             run (fun _ d => d) (fun _ e => e) steps
                 (new (mkOptions (Some "") 10 1000 true) 0 ∅) = Some (tt, w, fx))
    by (eexists _, _; vm_compute; reflexivity).
  destruct Hrun as (w & fx & Hrun). exists w, fx. split; [exact Hrun|].
  destruct (settings_fixed _ _ _ _ _ _ _ _ Hrun) as (_ & _ & _ & _ & Hc & Ht).
  split; [exact Ht|exact Hc].
Defined.

(** *** Bytes counted, hashed and metered *)

Lemma same_meter_refl w : same_meter w w.
Proof. repeat split. Qed.

Lemma same_meter_trans a b c : same_meter a b -> same_meter b c -> same_meter a c.
Proof. unfold same_meter. intros (?&?&?) (?&?&?). repeat split; congruence. Qed.

Lemma hash_digest_meter hash_fn : keeps same_meter (hash_digest hash_fn).
Proof.
  intros w b w' fx H. unfold hash_digest in H.
  erewrite bind_pure in H by reflexivity.
  destruct (hash_digests (hash (this w))); [|discriminate].
  erewrite bind_pure in H by reflexivity. injection H as _ <- _. repeat split.
Qed.

(** Every step but the delivery of a chunk leaves the meter alone. *)
Lemma step_same_meter hash_fn buffer_toString st :
  match st with
  | Chunk _ _ => True
  | _ => keeps same_meter (step hash_fn buffer_toString st)
  end.
Proof.
  destruct st; try exact I; unfold step;
    unfold abandon, digest, ensure_digest,
      emit, call, onTimeoutHandler, runImmediate, addListener, removeAllListeners,
      clearTimeout, setImmediate, emit, call, ensure_digest;
    keeps_tac_with ltac:(apply hash_digest_meter) same_meter_refl same_meter_trans;
    unfold same_meter; simpl; auto.
Qed.

(** What a chunk does to the meter of a stream that is not abandoned. *)
Lemma _write_meter chunk cb w w' fx :
  _dead (this w) = false ->
  _write chunk cb w = Some (tt, w', fx) ->
  bytes (this w') = bytes (this w) + Z.of_nat (List.length chunk) /\
  hash_data (hash (this w')) = hash_data (hash (this w)) ++ chunk /\
  collector (node w')
  = <[counter (this w) := default 0 (collector (node w) !! counter (this w))
                          + Z.of_nat (List.length chunk)]> (collector (node w)).
Proof.
  intros Hd H. unfold _write in H. erewrite bind_pure in H by reflexivity.
  rewrite Hd in H. erewrite bind_pure in H by reflexivity.
  erewrite bind_pure in H by reflexivity.
  destruct (hash_digests (hash (this w))) eqn:Hh.
  - erewrite bind_pure in H by (apply hash_update_eq; exact Hh).
    erewrite bind_pure in H by reflexivity.
    erewrite bind_pure in H by apply counter_add_eq.
    erewrite bind_pure in H by reflexivity. erewrite bind_pure in H by reflexivity.
    simpl in H.
    destruct (maxBytes (this w) <? bytes (this w) + Z.of_nat (List.length chunk)).
    + erewrite bind_some in H by apply emit_eq. simpl in H. injection H as <- _.
      repeat split.
    + erewrite bind_pure in H by apply setTimeout_eq.
      erewrite bind_pure in H by reflexivity. injection H as <- _. repeat split.
  - exfalso. apply bind_inv in H as ([] & w1 & fx1 & fx2 & H1 & _).
    unfold hash_update in H1. erewrite bind_pure in H1 by reflexivity.
    simpl in H1. rewrite Hh in H1. discriminate.
Qed.

Lemma metered_new opts now c :
  metered c (new opts now c) /\ counter (this (new opts now c)) = "muskie_sent_bytes"%string.
Proof.
  split; [|reflexivity]. unfold metered, new, collector_counter. simpl.
  split; [lia|]. split; [reflexivity|].
  destruct (c !! "muskie_sent_bytes"%string) as [v|] eqn:Hc; simpl.
  - split; [rewrite Hc; f_equal; lia|]. auto.
  - split; [apply lookup_insert_eq|]. intros name Hne. apply lookup_insert_ne. congruence.
Qed.

Lemma step_metered hash_fn buffer_toString c st w w' fx :
  step hash_fn buffer_toString st w = Some (tt, w', fx) ->
  metered c w /\ counter (this w) = "muskie_sent_bytes"%string ->
  metered c w' /\ counter (this w') = "muskie_sent_bytes"%string.
Proof.
  intros H [(Hpos & Hlen & Hcnt & Hoth) Hname].
  pose proof (step_same_settings hash_fn buffer_toString st _ _ _ _ H) as (_ & _ & _ & _ & Hc).
  split; [|congruence].
  pose proof (step_same_meter hash_fn buffer_toString st) as Hk.
  destruct st;
    try (destruct (Hk _ _ _ _ H) as (Hb & Hd & Hcol);
         unfold metered; rewrite Hb, Hd, Hcol; auto).
  simpl in H. destruct (_dead (this w)) eqn:Hdead.
  - rewrite _write_dead in H by assumption. injection H as <- _. unfold metered. auto.
  - destruct (_write_meter _ _ _ _ _ Hdead H) as (Hb & Hd & Hcol).
    unfold metered. rewrite Hb, Hd, Hcol, Hname, length_app.
    split; [lia|]. split; [lia|]. split.
    + rewrite lookup_insert_eq, Hcnt. simpl. f_equal. lia.
    + intros name Hne. rewrite lookup_insert_ne by congruence. auto.
Qed.

(** X10.  In every state a stream reaches, the bytes it has counted are the
    bytes it has given to its hash, the counter [muskie_sent_bytes] of the
    collector stands at its value before the stream was made plus those
    bytes, and no other counter of the collector has moved. *)
Theorem bytes_hashed_and_metered hash_fn buffer_toString opts now c steps w fx :
  run hash_fn buffer_toString steps (new opts now c) = Some (tt, w, fx) ->
  0 <= bytes (this w) /\
  bytes (this w) = Z.of_nat (List.length (hash_data (hash (this w)))) /\
  collector (node w) !! "muskie_sent_bytes"%string
  = Some (default 0 (c !! "muskie_sent_bytes"%string) + bytes (this w)) /\
  forall name, name <> "muskie_sent_bytes"%string ->
               collector (node w) !! name = c !! name.
Proof.
  intros H.
  assert (Hgen : forall steps w0 w fx,
             run hash_fn buffer_toString steps w0 = Some (tt, w, fx) ->
             metered c w0 /\ counter (this w0) = "muskie_sent_bytes"%string ->
             metered c w /\ counter (this w) = "muskie_sent_bytes"%string).
  { clear. induction steps as [|st steps IH]; intros w0 w fx H Hinv; simpl in H.
    - injection H as <- _. exact Hinv.
    - apply bind_inv in H as ([] & w1 & fx1 & fx2 & H1 & H2 & _).
      eapply IH; [exact H2|]. eapply step_metered; eassumption. }
  destruct (Hgen _ _ _ _ H (metered_new opts now c)) as [Hm _]. exact Hm.
Qed.

Lemma bytes_hashed_and_metered_witness :
  let c : gmap string Z := {[ "muskie_sent_bytes"%string := 40; "other"%string := 7 ]} in
  let steps := [Chunk [Byte.x61; Byte.x62] 0; TimerFires 1; Chunk [Byte.x63] 1; Abandon;
                Chunk [Byte.x64] 2] in
  exists w fx,
    run (fun _ d => d) (fun _ e => e) steps (new (mkOptions None 10 1000 false) 0 c)
    = Some (tt, w, fx) /\
    bytes (this w) = 3 /\
    collector (node w) !! "muskie_sent_bytes"%string = Some 43 /\
    collector (node w) !! "other"%string = Some 7.
Proof.
  intros c steps.
  assert (Hrun : exists w fx,
             run (fun _ d => d) (fun _ e => e) steps (new (mkOptions None 10 1000 false) 0 c)
             = Some (tt, w, fx)) by (eexists _, _; vm_compute; reflexivity).
  destruct Hrun as (w & fx & Hrun). exists w, fx. split; [exact Hrun|].
  destruct (bytes_hashed_and_metered _ _ _ _ _ _ _ _ Hrun) as (_ & _ & Hc & Ho).
  assert (Hb : bytes (this w) = 3).
  { vm_compute in Hrun. injection Hrun as <- _. reflexivity. }
  split; [exact Hb|]. split.
  - rewrite Hc, Hb. reflexivity.
  - rewrite Ho by discriminate. reflexivity.
Defined.

(** *** Timers *)

Lemma same_dead_refl w : same_dead w w.
Proof. reflexivity. Qed.

Lemma same_dead_trans a b c : same_dead a b -> same_dead b c -> same_dead a c.
Proof. unfold same_dead. congruence. Qed.

(** Nothing but [abandon] marks a stream dead, and nothing revives it. *)
Lemma step_same_dead hash_fn buffer_toString st :
  match st with
  | Abandon => True
  | _ => keeps same_dead (step hash_fn buffer_toString st)
  end.
Proof.
  destruct st; try exact I; unfold step;
    unfold _write, digest, ensure_digest, hash_digest, hash_update, counter_add,
      emit, call, onTimeoutHandler, runImmediate, addListener, removeAllListeners,
      clearTimeout, setTimeout, setImmediate, emit, call, ensure_digest, hash_digest;
    keeps_tac same_dead_refl same_dead_trans;
    unfold same_dead; simpl; auto.
Qed.

Lemma subseteq_empty_eq (X : gset nat) : X ⊆ ∅ -> X = ∅.
Proof.
  intros H. apply set_eq. intros x. split; [apply H|intros []%elem_of_empty].
Qed.

Lemma step_dead_no_timer hash_fn buffer_toString st w w' fx :
  step hash_fn buffer_toString st w = Some (tt, w', fx) ->
  own_timer w -> (_dead (this w) = true -> timers (node w) = ∅) ->
  _dead (this w') = true -> timers (node w') = ∅.
Proof.
  intros H Hown Hinv Hd'.
  pose proof (step_same_dead hash_fn buffer_toString st) as Hsd.
  pose proof (step_no_new_timer hash_fn buffer_toString st) as Hnt.
  destruct st;
    try (destruct (Hnt _ _ _ _ H) as [Hsub _]; apply subseteq_empty_eq;
         rewrite <- Hinv; [exact Hsub|]; rewrite <- (Hsd _ _ _ _ H); exact Hd').
  - pose proof (Hsd _ _ _ _ H) as Hsame. unfold same_dead in Hsame.
    rewrite Hsame in Hd'. simpl in H.
    rewrite _write_dead in H by assumption. injection H as <- _. auto.
  - simpl in H. rewrite abandon_eq in H. injection H as <- _. simpl.
    apply subseteq_empty_eq. intros x [Hx Hn]%elem_of_difference.
    exfalso. apply Hn, Hown, Hx.
Qed.

(** X11.  A stream never has more than one timer armed, and the one armed
    is the one in [this.timer]; an abandoned stream has none.  So no timer
    outlives the stream's interest in it. *)
Theorem at_most_one_timer hash_fn buffer_toString opts now c steps w fx :
  run hash_fn buffer_toString steps (new opts now c) = Some (tt, w, fx) ->
  timers (node w) ⊆ {[ timer (this w) ]} /\
  (size (timers (node w)) <= 1)%nat /\
  (_dead (this w) = true -> timers (node w) = ∅).
Proof.
  intros H.
  assert (Hgen : forall steps w0 w fx,
             run hash_fn buffer_toString steps w0 = Some (tt, w, fx) ->
             own_timer w0 /\ (_dead (this w0) = true -> timers (node w0) = ∅) ->
             own_timer w /\ (_dead (this w) = true -> timers (node w) = ∅)).
  { clear. induction steps as [|st steps IH]; intros w0 w fx H Hinv; simpl in H.
    - injection H as <- _. exact Hinv.
    - apply bind_inv in H as ([] & w1 & fx1 & fx2 & H1 & H2 & _).
      eapply IH; [exact H2|]. destruct Hinv as [Ho Hd]. split.
      + eapply step_own_timer; eassumption.
      + eapply step_dead_no_timer; eassumption. }
  destruct (Hgen _ _ _ _ H) as [Ho Hd].
  { split; [apply own_timer_new|]. intros Hdead. discriminate Hdead. }
  split; [exact Ho|]. split; [|exact Hd].
  apply subseteq_size in Ho. rewrite size_singleton in Ho. exact Ho.
Qed.

Lemma at_most_one_timer_witness :
  let steps := [Chunk [Byte.x61] 0; Chunk [Byte.x62] 1; TimerFires 0; Digest None] in
  exists w fx,
    run (fun _ d => d) (fun _ e => e) steps (new (mkOptions None 10 1000 false) 0 ∅)
    = Some (tt, w, fx) /\
    (size (timers (node w)) <= 1)%nat.
Proof.
  intros steps.
  assert (Hrun : exists w fx,
             run (fun _ d => d) (fun _ e => e) steps (new (mkOptions None 10 1000 false) 0 ∅)
             = Some (tt, w, fx)) by (eexists _, _; vm_compute; reflexivity).
  destruct Hrun as (w & fx & Hrun). exists w, fx. split; [exact Hrun|].
  destruct (at_most_one_timer _ _ _ _ _ _ _ _ Hrun) as (_ & H & _). exact H.
Defined.

(** X12.  The idle timeout is advisory and fires once per idle period.  When
    the armed timer of a stream expires, [timeout] is emitted and delivered
    to its handlers, and nothing else changes: the stream is as alive as it
    was, its bytes and hash are untouched.  No timer is armed afterwards, so
    no second [timeout] comes before a chunk arms a new one; and a timer that
    is not armed (cleared, or fired already) does nothing. *)
Theorem timeout_once_per_idle hash_fn buffer_toString opts now c steps w fx h :
  run hash_fn buffer_toString steps (new opts now c) = Some (tt, w, fx) ->
  (h ∈ timers (node w) ->
   exists w',
     step hash_fn buffer_toString (TimerFires h) w
     = Some (tt, w', Emit "timeout" None
                      :: calls_of "timeout" None (listeners "timeout" (this w))) /\
     timers (node w') = ∅ /\
     _dead (this w') = _dead (this w) /\
     bytes (this w') = bytes (this w) /\
     hash (this w') = hash (this w) /\
     _digest (this w') = _digest (this w) /\
     forall h', step hash_fn buffer_toString (TimerFires h') w' = Some (tt, w', [])) /\
  (h ∉ timers (node w) ->
   step hash_fn buffer_toString (TimerFires h) w = Some (tt, w, [])).
Proof.
  intros H.
  destruct (run_reachable _ _ _ _ _ _ H) as [Hown _];
    [split; [apply own_timer_new|apply on_finish_only_new]|].
  assert (Hidle : forall w0 h0, h0 ∉ timers (node w0) ->
            step hash_fn buffer_toString (TimerFires h0) w0 = Some (tt, w0, [])).
  { intros w0 h0 Hn. simpl. erewrite bind_pure by reflexivity.
    destruct (decide (h0 ∈ timers (node w0))); [contradiction|reflexivity]. }
  split; [|apply Hidle].
  intros Hin. simpl. erewrite bind_pure by reflexivity.
  destruct (decide (h ∈ timers (node w))); [|contradiction].
  erewrite bind_pure by reflexivity. unfold onTimeoutHandler. rewrite emit_eq. simpl.
  eexists. split; [reflexivity|]. simpl.
  assert (He : timers (node w) ∖ {[ h ]} = ∅).
  { apply subseteq_empty_eq. intros x [Hx Hn]%elem_of_difference.
    exfalso. apply Hn. apply Hown in Hx. apply Hown in Hin.
    apply elem_of_singleton in Hx, Hin. apply elem_of_singleton. congruence. }
  repeat split; try exact He.
  intros h'. apply Hidle. simpl. rewrite He. apply not_elem_of_empty.
Qed.

Lemma timeout_once_per_idle_witness :
  let steps := [Listen "timeout" 5 false; Chunk [Byte.x61] 0] in
  exists w fx w',
    run (fun _ d => d) (fun _ e => e) steps (new (mkOptions None 10 1000 false) 0 ∅)
    = Some (tt, w, fx) /\
    1%nat ∈ timers (node w) /\
    step (fun _ d => d) (fun _ e => e) (TimerFires 1) w
    = Some (tt, w', [Emit "timeout" None; Call 5 "timeout" None]) /\
    step (fun _ d => d) (fun _ e => e) (TimerFires 1) w' = Some (tt, w', []).
Proof.
  intros steps.
  assert (Hrun : exists w fx,
             run (fun _ d => d) (fun _ e => e) steps (new (mkOptions None 10 1000 false) 0 ∅)
             = Some (tt, w, fx) /\ 1%nat ∈ timers (node w) /\
             listeners "timeout" (this w) = [Handler 5 false]).
  { eexists _, _. split; [vm_compute; reflexivity|]. split; [|reflexivity].
    vm_compute. reflexivity. }
  destruct Hrun as (w & fx & Hrun & Hin & Hl).
  destruct (timeout_once_per_idle _ _ _ _ _ _ _ _ 1%nat Hrun) as [H1 _].
  destruct (H1 Hin) as (w' & Hs & _ & _ & _ & _ & _ & Hidle).
  rewrite Hl in Hs. exists w, fx, w'. auto.
Defined.

(** *** The digest *)

Lemma write_all_keeps (R : World -> World -> Prop) chunks cb :
  (forall w, R w w) -> (forall a b c, R a b -> R b c -> R a c) ->
  (forall chunk k, keeps R (_write chunk k)) ->
  keeps R (write_all chunks cb).
Proof.
  intros Hrefl Htrans Hw. revert cb.
  induction chunks as [|ch chunks IH]; intros cb; simpl.
  - apply keeps_ret, Hrefl.
  - apply keeps_bind; [exact Htrans|apply Hw|intros _; apply IH].
Qed.

Lemma bind_none {A B} (m : M A) (k : A -> M B) w : m w = None -> bind m k w = None.
Proof. unfold bind. intros ->. reflexivity. Qed.

(** X13.  A stream that is given chunks within its byte limit, then sees
    [finish], emits [done] once on the next turn of the event loop, and
    [digest] then returns the hash (by the stream's algorithm) of the chunks
    in the order they were written: as a buffer when no encoding or an empty
    one is given, as text in the encoding otherwise. *)
Theorem digest_of_stream hash_fn buffer_toString opts now c chunks encoding :
  total_length chunks <= opt_maxBytes opts ->
  let b := hash_fn (algorithm_or_md5 (opt_algorithm opts)) (concat chunks) in
  exists w1 w2 w3 w4,
    write_all chunks 0 (new opts now c)
    = Some (tt, w1, map (fun k => Callback k None) (seq 0 (List.length chunks))) /\
    step hash_fn buffer_toString Finish w1 = Some (tt, w2, [Emit "finish" None]) /\
    step hash_fn buffer_toString Tick w2 = Some (tt, w3, [Emit "done" None]) /\
    digest hash_fn buffer_toString encoding w3
    = Some (match encoding with
            | Some e => if String.eqb e "" then AsBuffer b
                        else AsString (buffer_toString b e)
            | None => AsBuffer b
            end, w4, []) /\
    bytes (this w4) = total_length chunks /\
    _digest (this w4) = Some b.
Proof.
  intros Hle b.
  assert (Hrun0 : running (new opts now c)) by (split; reflexivity).
  destruct (write_all_within chunks 0 (new opts now c) Hrun0)
    as (w1 & Hw & [Hd1 Hh1] & Hb1 & _ & Hdata & Himm & Hev); [simpl; lia|].
  pose proof (write_all_keeps same_settings chunks 0 same_settings_refl same_settings_trans
                (fun chunk k => step_same_settings hash_fn buffer_toString (Chunk chunk k))
                _ _ _ _ Hw) as (_ & Halg & _).
  pose proof (write_all_keeps same_digest chunks 0 same_digest_refl same_digest_trans
                (fun chunk k => step_same_digest hash_fn buffer_toString (Chunk chunk k))
                _ _ _ _ Hw) as (Hdig & _).
  simpl in Hb1, Hdata, Himm, Hev, Halg, Hdig.
  assert (Hfin : listeners "finish" (this w1) = [OnFinish]).
  { unfold listeners. rewrite Hev. reflexivity. }
  assert (Hdone : listeners "done" (this w1) = []).
  { unfold listeners. rewrite Hev. reflexivity. }
  exists w1. eexists _, _, _.
  split; [exact Hw|].
  split; [simpl; rewrite emit_eq, Hfin, Himm; reflexivity|].
  split.
  { simpl. erewrite bind_pure by reflexivity. simpl.
    erewrite bind_pure by reflexivity.
    unfold runImmediate. erewrite bind_pure
      by (apply ensure_digest_unset; [exact Hdig|exact Hh1]).
    rewrite emit_eq. simpl.
    assert (Hd2 : forall s, _events s = <["finish"%string := []]> (_events (this w1)) ->
                            listeners "done" s = []).
    { intros s Hs. unfold listeners. rewrite Hs, Hev. reflexivity. }
    rewrite !Hd2 by reflexivity. reflexivity. }
  split.
  { erewrite digest_eq by (apply ensure_digest_set; reflexivity).
    simpl. rewrite Halg, Hdata. reflexivity. }
  split; [exact (eq_trans Hb1 (Z.add_0_l _))|reflexivity].
Qed.

Lemma digest_of_stream_witness :
  let chunks := [[Byte.x61; Byte.x62]; [Byte.x63]] in
  let opts := mkOptions (Some "sha256") 3 1000 false in
  exists w1 w2 w3 w4,
    write_all chunks 0 (new opts 0 ∅) = Some (tt, w1, [Callback 0 None; Callback 1 None]) /\
    step (fun _ d => d) (fun b e => e) Finish w1 = Some (tt, w2, [Emit "finish" None]) /\
    step (fun _ d => d) (fun b e => e) Tick w2 = Some (tt, w3, [Emit "done" None]) /\
    digest (fun _ d => d) (fun b e => e) (Some "hex") w3 = Some (AsString "hex", w4, []).
Proof.
  intros chunks opts.
  assert (Hle : total_length chunks <= opt_maxBytes opts) by (vm_compute; discriminate).
  destruct (digest_of_stream (fun _ d => d) (fun b e => e) opts 0 ∅ chunks (Some "hex") Hle)
    as (w1 & w2 & w3 & w4 & H1 & H2 & H3 & H4 & _).
  exists w1, w2, w3, w4. auto.
Defined.

(** X14.  A stream hashes only until its digest is made.  In every state a
    stream reaches in which it is not abandoned, a call of [digest] succeeds,
    and the next chunk then makes [_write] throw: the hash is finalized and
    takes no more data.  So does a chunk that comes after [done]. *)
Theorem chunk_after_digest_throws hash_fn buffer_toString opts now c steps w fx chunk cb :
  run hash_fn buffer_toString steps (new opts now c) = Some (tt, w, fx) ->
  _dead (this w) = false ->
  (_digest (this w) <> None -> _write chunk cb w = None) /\
  (forall encoding, exists d w1,
      digest hash_fn buffer_toString encoding w = Some (d, w1, []) /\
      _dead (this w1) = false /\
      _write chunk cb w1 = None).
Proof.
  intros Hrun Halive.
  assert (Hthrow : forall w0, digest_once w0 -> _dead (this w0) = false ->
                              _digest (this w0) <> None -> _write chunk cb w0 = None).
  { intros w0 Hinv Hd Hset. unfold digest_once in Hinv.
    destruct (_digest (this w0)) as [b|]; [|contradiction].
    unfold _write. pure_step. simpl. rewrite Hd. pure_step. pure_step.
    apply bind_none. unfold hash_update. pure_step. simpl. rewrite Hinv. reflexivity. }
  assert (Hinv : digest_once w) by (eapply run_digest_once; [exact Hrun|reflexivity]).
  split; [apply Hthrow; assumption|].
  intros encoding.
  set (wa := mkWorld (this w)
               (set_timers (timers (node w) ∖ {[ timer (this w) ]}) (node w))).
  destruct (ensure_digest_once hash_fn wa Hinv) as (b & w1 & He & Hd & Hh & _).
  destruct (ensure_digest_quiet _ _ _ _ _ He) as (_ & _ & Hdead & _).
  eexists _, w1. rewrite (digest_eq _ _ _ _ _ _ He).
  split; [reflexivity|]. split; [rewrite Hdead; exact Halive|].
  apply Hthrow.
  - unfold digest_once. rewrite Hd. exact Hh.
  - rewrite Hdead. exact Halive.
  - rewrite Hd. discriminate.
Qed.

Lemma chunk_after_digest_throws_witness :
  let steps := [Chunk [Byte.x61] 0; Digest None] in
  exists w fx,
    run (fun _ d => d) (fun _ e => e) steps (new (mkOptions None 10 1000 false) 0 ∅)
    = Some (tt, w, fx) /\
    _write [Byte.x62] 1 w = None.
Proof.
  intros steps.
  assert (Hrun : exists w fx,
             run (fun _ d => d) (fun _ e => e) steps (new (mkOptions None 10 1000 false) 0 ∅)
             = Some (tt, w, fx) /\ _dead (this w) = false /\ _digest (this w) <> None).
  { eexists _, _. split; [vm_compute; reflexivity|]. split; [reflexivity|discriminate]. }
  destruct Hrun as (w & fx & Hrun & Hd & Hset). exists w, fx. split; [exact Hrun|].
  exact (proj1 (chunk_after_digest_throws _ _ _ _ _ _ _ _ [Byte.x62] 1%nat Hrun Hd) Hset).
Defined.

Lemma abandon_silences_witness :
  let before := [Listen "timeout" 1 false; Listen "error" 2 false;
                 Chunk [Byte.x61] 0] in
  let after := [Chunk [Byte.x62; Byte.x63] 1; TimerFires 1; Finish; Tick; Digest None] in
  exists w w1 w2 fx0 fx2,
    run (fun _ d => d) (fun _ e => e) before (new (mkOptions None 2 1000 false) 0 ∅)
    = Some (tt, w, fx0) /\
    abandon w = Some (tt, w1, []) /\
    run (fun _ d => d) (fun _ e => e) after w1 = Some (tt, w2, fx2) /\
    timers (node w2) = ∅ /\
    forallb (fun e => negb (is_lifecycle_signal e)) fx2 = true.
Proof.
  intros before after.
  assert (Hrun : exists w w1 w2 fx0 fx2,
             run (fun _ d => d) (fun _ e => e) before (new (mkOptions None 2 1000 false) 0 ∅)
             = Some (tt, w, fx0) /\
             ~ In FinishImmediate (immediates (node w)) /\
             abandon w = Some (tt, w1, []) /\
             run (fun _ d => d) (fun _ e => e) after w1 = Some (tt, w2, fx2)).
  { eexists _, _, _, _, _. split; [vm_compute; reflexivity|].
    split; [simpl; tauto|]. split; [vm_compute; reflexivity|]. vm_compute. reflexivity. }
  destruct Hrun as (w & w1 & w2 & fx0 & fx2 & Hb & Hi & Ha & Hr).
  exists w, w1, w2, fx0, fx2.
  destruct (abandon_silences _ _ _ _ _ _ _ _ _ _ _ _ _ Hb Hi Ha Hr) as (_ & _ & Ht & Hq).
  auto.
Defined.

(** *** [done] *)

Section Yields.
Context (Q : list Effect -> Prop).
Hypothesis Q_nil : Q [].
Hypothesis Q_app : forall a b, Q a -> Q b -> Q (a ++ b).

Lemma yields_ret {A} (a : A) : yields Q (ret a).
Proof using Q_nil. intros w a' w' fx H. inversion H; subst. exact Q_nil. Qed.

Lemma yields_throw {A} : yields Q (@throw A).
Proof. intros w a w' fx H. discriminate H. Qed.

Lemma yields_get {A} (f : CheckStream -> A) : yields Q (get f).
Proof using Q_nil. intros w a w' fx H. inversion H; subst. exact Q_nil. Qed.

Lemma yields_get_node {A} (f : Runtime -> A) : yields Q (get_node f).
Proof using Q_nil. intros w a w' fx H. inversion H; subst. exact Q_nil. Qed.

Lemma yields_update f : yields Q (update f).
Proof using Q_nil. intros w a w' fx H. inversion H; subst. exact Q_nil. Qed.

Lemma yields_update_node f : yields Q (update_node f).
Proof using Q_nil. intros w a w' fx H. inversion H; subst. exact Q_nil. Qed.

Lemma yields_tell fx : Q fx -> yields Q (tell fx).
Proof. intros Hq w a w' fx' H. inversion H; subst. exact Hq. Qed.

Lemma yields_bind {A B} (m : M A) (k : A -> M B) :
  yields Q m -> (forall a, yields Q (k a)) -> yields Q (bind m k).
Proof using Q_app.
  intros Hm Hk w b w2 fx H.
  apply bind_inv in H as (a & w1 & fx1 & fx2 & H1 & H2 & ->).
  apply Q_app; [eapply Hm; eassumption|eapply Hk; eassumption].
Qed.
End Yields.

Ltac yields_tac known Hnil Happ :=
  repeat first
    [ known
    | apply (yields_bind _ Happ); [|intros ?]
    | apply (yields_ret _ Hnil)
    | apply yields_throw
    | apply (yields_get _ Hnil)
    | apply (yields_get_node _ Hnil)
    | apply (yields_update _ Hnil)
    | apply (yields_update_node _ Hnil)
    | apply yields_tell
    | match goal with
      | |- yields _ (match ?x with _ => _ end) => destruct x
      | |- yields _ (if ?x then _ else _) => destruct x
      end ].

Lemma no_done_nil : no_done [].
Proof. reflexivity. Qed.

Lemma no_done_app a b : no_done a -> no_done b -> no_done (a ++ b).
Proof. unfold no_done. rewrite emitted_app. intros -> ->. reflexivity. Qed.

Lemma emit_no_done event arg :
  String.eqb event "done" = false -> yields no_done (emit event arg).
Proof.
  intros Hne w [] w' fx H. rewrite emit_eq in H. injection H as _ <-.
  unfold no_done, emitted. simpl. rewrite Hne. apply emitted_calls.
Qed.

(** No step but a turn of the event loop emits [done]. *)
Lemma step_no_done hash_fn buffer_toString st :
  match st with
  | Tick => True
  | _ => yields no_done (step hash_fn buffer_toString st)
  end.
Proof.
  destruct st; try exact I; unfold step;
    unfold _write, abandon, digest, ensure_digest, hash_digest, hash_update, counter_add,
      onTimeoutHandler, clearTimeout, setTimeout, setImmediate, addListener,
      removeAllListeners, ensure_digest, hash_digest;
    yields_tac ltac:(apply emit_no_done; reflexivity) no_done_nil no_done_app;
    reflexivity.
Qed.

Lemma done_not_added_refl w : done_not_added w w.
Proof. intros H. split; [exact H|reflexivity]. Qed.

Lemma done_not_added_trans a b c :
  done_not_added a b -> done_not_added b c -> done_not_added a c.
Proof.
  intros Hab Hbc Ha. destruct (Hab Ha) as [Hb Hle1]. destruct (Hbc Hb) as [Hc Hle2].
  split; [exact Hc|]. etransitivity; eassumption.
Qed.

Lemma finish_immediates_of ls :
  List.filter is_finish_immediate (immediates_of ls)
  = map (fun _ => FinishImmediate) (List.filter is_on_finish ls).
Proof.
  induction ls as [|[|h o] ls IH]; simpl; [reflexivity| |exact IH].
  rewrite IH. reflexivity.
Qed.

Lemma on_finish_filtered ls :
  List.filter is_on_finish (List.filter (fun l => negb (is_once l)) ls) = [].
Proof.
  induction ls as [|[|h o] ls IH]; simpl; [reflexivity|exact IH|].
  destruct o; simpl; exact IH.
Qed.

Lemma no_on_finish ls : ~ In OnFinish ls -> List.filter is_on_finish ls = [].
Proof.
  induction ls as [|[|h o] ls IH]; simpl; intros H; [reflexivity| |apply IH; tauto].
  exfalso. apply H. left. reflexivity.
Qed.

Lemma emit_done_not_added event arg : keeps done_not_added (emit event arg).
Proof.
  intros w [] w' fx H Hofo.
  split; [exact (emit_on_finish_only event arg _ _ _ _ H Hofo)|].
  rewrite emit_eq in H. injection H as <- _.
  unfold pending_done. simpl. rewrite listeners_insert.
  rewrite List.filter_app, length_app, finish_immediates_of, length_map.
  destruct (decide (event = "finish"%string)) as [->|Hne].
  - rewrite on_finish_filtered. simpl. lia.
  - rewrite (no_on_finish (listeners event (this w))).
    + simpl. lia.
    + intros Hin. apply Hne, Hofo, Hin.
Qed.

Lemma addListener_done_not_added event h once :
  keeps done_not_added (addListener event (Handler h once)).
Proof.
  intros w [] w' fx H Hofo.
  split; [exact (addListener_on_finish_only event h once _ _ _ _ H Hofo)|].
  unfold addListener, update in H. injection H as <- _.
  unfold pending_done. simpl. rewrite listeners_insert.
  destruct (decide (event = "finish"%string)) as [->|Hne]; [|reflexivity].
  rewrite List.filter_app, length_app. simpl. lia.
Qed.

Lemma removeAllListeners_done_not_added event :
  keeps done_not_added (removeAllListeners event).
Proof.
  intros w [] w' fx H Hofo.
  split; [exact (removeAllListeners_on_finish_only event _ _ _ _ H Hofo)|].
  unfold removeAllListeners, update in H. injection H as <- _.
  unfold pending_done. simpl. rewrite listeners_delete.
  destruct (decide (event = "finish"%string)) as [->|Hne]; [simpl; lia|reflexivity].
Qed.

Lemma setImmediate_exceeded_done_not_added cb :
  keeps done_not_added (setImmediate (ExceededImmediate cb)).
Proof.
  intros w [] w' fx H Hofo. unfold setImmediate, update_node in H. injection H as <- _.
  split; [exact Hofo|]. unfold pending_done. simpl.
  rewrite List.filter_app, length_app. simpl. lia.
Qed.

(** No step but a turn of the event loop changes what [done] are to come,
    unless it takes them away. *)
Lemma step_done_not_added hash_fn buffer_toString st :
  match st with
  | Tick => True
  | _ => keeps done_not_added (step hash_fn buffer_toString st)
  end.
Proof.
  destruct st; try exact I; unfold step;
    unfold _write, abandon, digest, ensure_digest, hash_digest, hash_update, counter_add,
      onTimeoutHandler, clearTimeout, setTimeout, ensure_digest, hash_digest;
    keeps_tac_with
      ltac:(first [ apply emit_done_not_added
                  | apply addListener_done_not_added
                  | apply removeAllListeners_done_not_added
                  | apply setImmediate_exceeded_done_not_added ])
      done_not_added_refl done_not_added_trans;
    intros Hofo; (split; [exact Hofo|reflexivity]).
Qed.

Lemma ensure_digest_sets hash_fn w b w' fx :
  ensure_digest hash_fn w = Some (b, w', fx) -> _digest (this w') <> None.
Proof.
  intros H. destruct (_digest (this w)) as [b0|] eqn:Hd.
  - rewrite (ensure_digest_set _ b0) in H by assumption. injection H as _ <- _.
    rewrite Hd. discriminate.
  - destruct (hash_digests (hash (this w))) as [|n] eqn:Hh.
    + rewrite ensure_digest_unset in H by assumption. injection H as _ <- _.
      simpl. discriminate.
    + exfalso. unfold ensure_digest in H. erewrite bind_pure in H by reflexivity.
      rewrite Hd in H. apply bind_inv in H as (b1 & w1 & fx1 & fx2 & H1 & _).
      unfold hash_digest in H1. erewrite bind_pure in H1 by reflexivity.
      rewrite Hh in H1. discriminate.
Qed.

(** What one step does about [done]: it emits [done] only by using up one
    that was to come, and then the digest is set. *)
Lemma step_done hash_fn buffer_toString st w w' fx :
  step hash_fn buffer_toString st w = Some (tt, w', fx) ->
  on_finish_only w ->
  on_finish_only w' /\
  (pending_done w' + emitted "done" fx <= pending_done w)%nat /\
  (emitted "done" fx <> O -> _digest (this w') <> None).
Proof.
  intros H Hofo.
  pose proof (step_no_done hash_fn buffer_toString st) as Hq.
  pose proof (step_done_not_added hash_fn buffer_toString st) as Hk.
  destruct st;
    try (destruct (Hk _ _ _ _ H Hofo) as [Hofo' Hle];
         pose proof (Hq _ _ _ _ H) as Hnone; unfold no_done in Hnone;
         rewrite Hnone; split; [exact Hofo'|]; split; [lia|congruence]).
  clear Hq Hk. simpl in H. erewrite bind_pure in H by reflexivity.
  destruct (immediates (node w)) as [|[|k] q] eqn:Hi.
  - injection H as <- <-. split; [exact Hofo|]. split; [unfold emitted; simpl; lia|]. intros Hc. contradiction.
  - erewrite bind_pure in H by reflexivity. unfold runImmediate in H.
    apply bind_inv in H as (b & w1 & fx1 & fx2 & H1 & H2 & ->).
    destruct (ensure_digest_quiet _ _ _ _ _ H1) as (-> & Hn & _ & He).
    pose proof (ensure_digest_sets _ _ _ _ _ H1) as Hset.
    assert (Hofo1 : on_finish_only w1).
    { intros ev Hin. apply Hofo. unfold listeners in *. rewrite He in Hin. exact Hin. }
    destruct (emit_done_not_added _ _ _ _ _ _ H2 Hofo1) as [Hofo' Hle].
    destruct (emit_same_digest _ _ _ _ _ _ H2) as [Hd _].
    rewrite emit_eq in H2. injection H2 as _ <-.
    assert (Hp : (pending_done w1 + 1 = pending_done w)%nat).
    { unfold pending_done, listeners. rewrite He, Hn, Hi. simpl. lia. }
    split; [exact Hofo'|]. split.
    + simpl. unfold emitted. simpl. fold (emitted "done" (calls_of "done" None
                                                   (listeners "done" (this w1)))).
      rewrite emitted_calls. lia.
    + intros _. rewrite Hd. exact Hset.
  - erewrite bind_pure in H by reflexivity. rewrite runImmediate_exceeded in H.
    injection H as <- <-. split; [exact Hofo|]. split; [|intros Hc; contradiction].
    unfold pending_done, emitted. simpl. rewrite Hi. simpl. lia.
Qed.

Lemma digest_kept_refl w : digest_kept w w.
Proof. intros H. exact H. Qed.

Lemma digest_kept_trans a b c : digest_kept a b -> digest_kept b c -> digest_kept a c.
Proof. unfold digest_kept. auto. Qed.

(** Once made, the digest stays. *)
Lemma step_digest_kept hash_fn buffer_toString st :
  keeps digest_kept (step hash_fn buffer_toString st).
Proof.
  destruct st; unfold step;
    unfold _write, abandon, digest, ensure_digest, hash_digest, hash_update, counter_add,
      emit, call, onTimeoutHandler, runImmediate, addListener, removeAllListeners,
      clearTimeout, setTimeout, setImmediate, emit, call, ensure_digest, hash_digest;
    keeps_tac digest_kept_refl digest_kept_trans;
    unfold digest_kept; simpl; auto; intros; discriminate.
Qed.

Lemma run_done hash_fn buffer_toString steps w w' fx :
  run hash_fn buffer_toString steps w = Some (tt, w', fx) ->
  on_finish_only w ->
  (pending_done w' + emitted "done" fx <= pending_done w)%nat /\
  (emitted "done" fx <> O -> _digest (this w') <> None).
Proof.
  revert w fx. induction steps as [|st steps IH]; intros w fx H Hofo; simpl in H.
  - injection H as <- <-. split; [unfold emitted; simpl; lia|]. intros Hc. contradiction.
  - apply bind_inv in H as ([] & w1 & fx1 & fx2 & H1 & H2 & ->).
    destruct (step_done _ _ _ _ _ _ H1 Hofo) as (Hofo1 & Hle1 & Hset1).
    destruct (IH _ _ H2 Hofo1) as (Hle2 & Hset2).
    rewrite emitted_app. split; [lia|]. intros Hne.
    destruct (emitted "done" fx2) as [|n] eqn:E2; [|apply Hset2; discriminate].
    apply (run_keeps digest_kept _ _ _ digest_kept_refl digest_kept_trans
             (step_digest_kept _ _) _ _ _ _ H2).
    apply Hset1. lia.
Qed.

(** X15.  A stream emits [done] at most once, whatever happens to it and
    however often [finish] is emitted; once [done] has been emitted none is
    left to come, and the digest is set by then. *)
Theorem done_at_most_once hash_fn buffer_toString opts now c steps w fx :
  run hash_fn buffer_toString steps (new opts now c) = Some (tt, w, fx) ->
  (emitted "done" fx + pending_done w <= 1)%nat /\
  (emitted "done" fx <> O -> _digest (this w) <> None).
Proof.
  intros H.
  destruct (run_done _ _ _ _ _ _ H (on_finish_only_new opts now c)) as [Hle Hset].
  split; [|exact Hset].
  assert (Hnew : pending_done (new opts now c) = 1%nat) by reflexivity.
  lia.
Qed.

Lemma done_at_most_once_witness :
  let steps := [Chunk [Byte.x61] 0; Finish; Finish; Tick; Tick; Finish; Tick] in
  exists w fx,
    run (fun _ d => d) (fun _ e => e) steps (new (mkOptions None 10 1000 false) 0 ∅)
    = Some (tt, w, fx) /\
    (emitted "done" fx + pending_done w <= 1)%nat.
Proof.
  intros steps.
  assert (Hrun : exists w fx,
             run (fun _ d => d) (fun _ e => e) steps (new (mkOptions None 10 1000 false) 0 ∅)
             = Some (tt, w, fx)) by (eexists _, _; vm_compute; reflexivity).
  destruct Hrun as (w & fx & Hrun). exists w, fx. split; [exact Hrun|].
  exact (proj1 (done_at_most_once _ _ _ _ _ _ _ _ Hrun)).
Defined.

End CheckStreamMoreProps.
